(** * SimpleCache and RateLimiter: a shallow embedding

    The two classes of the coding challenges ("Implement a rate limiter",
    "Implement a simple cache") are embedded as state-passing functions,
    and so are the closures of [throttle] and [debounce] and the executor
    and reactions of [promiseAll].

    - [Date.now()] is an explicit argument [now : Z] (epoch milliseconds)
      of every method that reads the clock.
    - A JavaScript [Map] is a [gmap] keyed by JavaScript values; [Map]
      accepts every value as a key, the empty string included.
    - A method returns its JavaScript result together with the object
      after the call.  None of the methods contains a [throw] and the
      [Map] primitives they call never throw, so every method is a total
      function. *)

From stdpp Require Import gmap strings list fin_maps sorting.

Local Open Scope Z_scope.

(** ** JavaScript values *)

(** The values that flow through the two classes.  Numbers are the
    integers ([Date.now()], counts and durations are integral). *)
Inductive jsval : Type :=
  | JUndefined
  | JNull
  | JBool (b : bool)
  | JNum (n : Z)
  | JStr (s : string).

#[global] Instance jsval_eq_dec : EqDecision jsval.
Proof. solve_decision. Defined.

Definition jsval_encode (v : jsval) : unit + (unit + (bool + (Z + string))) :=
  match v with
  | JUndefined => inl tt
  | JNull => inr (inl tt)
  | JBool b => inr (inr (inl b))
  | JNum n => inr (inr (inr (inl n)))
  | JStr s => inr (inr (inr (inr s)))
  end.

Definition jsval_decode (x : unit + (unit + (bool + (Z + string)))) : jsval :=
  match x with
  | inl _ => JUndefined
  | inr (inl _) => JNull
  | inr (inr (inl b)) => JBool b
  | inr (inr (inr (inl n))) => JNum n
  | inr (inr (inr (inr s))) => JStr s
  end.

Lemma jsval_decode_encode (v : jsval) : jsval_decode (jsval_encode v) = v.
Proof. by destruct v. Qed.

#[global] Instance jsval_countable : Countable jsval :=
  inj_countable' jsval_encode jsval_decode jsval_decode_encode.

(** [Map.prototype.delete]: removes the key and reports whether it was
    there. *)
Definition Map_delete {V : Type} (m : gmap jsval V) (k : jsval)
  : bool * gmap jsval V :=
  (bool_decide (is_Some (m !! k)), delete k m).

(** Binding of actual arguments to formal parameters: a missing argument
    is [undefined], arguments beyond the parameter list are dropped. *)
Definition arg (i : nat) (args : list jsval) : jsval :=
  nth i args JUndefined.

(** ** class SimpleCache *)

Module SimpleCache.

(** The object literal [{ value, expiresAt }] stored per key. *)
Record item : Type := Item { value : jsval; expiresAt : Z }.

Record t : Type := Build { cache : gmap jsval item; ttl : Z }.

(** [constructor(ttl = 60000)]: the default applies when the argument
    is missing. *)
Definition constructor (ttl : option Z) : t :=
  {| cache := ∅; ttl := default 60000 ttl |}.

(** [set(key, value)] *)
Definition set (this : t) (key value : jsval) (now : Z) : t :=
  {| cache := <[key := {| value := value; expiresAt := now + ttl this |}]>
                (cache this);
     ttl := ttl this |}.

(** [get(key)]: a stored item is an object, hence truthy, so [!item]
    holds exactly when the key is absent. *)
Definition get (this : t) (key : jsval) (now : Z) : jsval * t :=
  match cache this !! key with
  | None => (JNull, this)
  | Some item =>
      if bool_decide (now > expiresAt item) then
        let '(_, m) := Map_delete (cache this) key in
        (JNull, {| cache := m; ttl := ttl this |})
      else (value item, this)
  end.

(** [delete(key)]: the body is a single expression statement, so the
    method returns [undefined]. *)
Definition delete (this : t) (key : jsval) : jsval * t :=
  let '(_, m) := Map_delete (cache this) key in
  (JUndefined, {| cache := m; ttl := ttl this |}).

(** [clear()] *)
Definition clear (this : t) : t :=
  {| cache := ∅; ttl := ttl this |}.

(** A call [cache.set(a0, a1, ...)] with an arbitrary argument list. *)
Definition call_set (this : t) (args : list jsval) (now : Z) : t :=
  set this (arg 0 args) (arg 1 args) now.

End SimpleCache.

(** ** class RateLimiter *)

Module RateLimiter.

Record t : Type :=
  Build { maxRequests : Z; windowMs : Z; requests : gmap jsval (list Z) }.

(** [constructor(maxRequests, windowMs)] *)
Definition constructor (maxRequests windowMs : Z) : t :=
  {| maxRequests := maxRequests; windowMs := windowMs; requests := ∅ |}.

(** [userRequests.filter(time => now - time < this.windowMs)] *)
Definition recent (windowMs now : Z) (userRequests : list Z) : list Z :=
  filter (λ time, now - time < windowMs) userRequests.

(** [isAllowed(identifier)]: a stored array is truthy, so [|| []] applies
    exactly when the identifier has no entry; [filter] builds a new
    array, and the stored one is replaced only when the call is admitted. *)
Definition isAllowed (this : t) (identifier : jsval) (now : Z) : bool * t :=
  let userRequests := default [] (requests this !! identifier) in
  let recentRequests := recent (windowMs this) now userRequests in
  if bool_decide (Z.of_nat (length recentRequests) >= maxRequests this) then
    (false, this)
  else
    (true,
     {| maxRequests := maxRequests this;
        windowMs := windowMs this;
        requests := <[identifier := recentRequests ++ [now]]> (requests this) |}).

(** [this.requests.get(identifier) || []]: the timestamps on record for
    an identifier. *)
Definition stored (this : t) (identifier : jsval) : list Z :=
  default [] (requests this !! identifier).

(** A sequence of calls [(identifier, now)], in order; the results are
    collected in call order. *)
Fixpoint run (this : t) (calls : list (jsval * Z)) : list bool * t :=
  match calls with
  | [] => ([], this)
  | (identifier, now) :: rest =>
      let '(b, this1) := isAllowed this identifier now in
      let '(bs, this2) := run this1 rest in
      (b :: bs, this2)
  end.

(** The times of the admitted calls of [identifier], in call order. *)
Fixpoint admitted (identifier : jsval) (calls : list (jsval * Z))
    (results : list bool) : list Z :=
  match calls, results with
  | (i, now) :: calls', b :: results' =>
      if bool_decide (i = identifier) && b
      then now :: admitted identifier calls' results'
      else admitted identifier calls' results'
  | _, _ => []
  end.

(** How many of the times [l] lie in the closed interval [lo, hi]. *)
Definition count_between (lo hi : Z) (l : list Z) : Z :=
  Z.of_nat (length (filter (λ t, lo ≤ t ≤ hi) l)).

(** How many of the times [l] lie in [a, a + w), resp. in (a, a + w]. *)
Definition count_from (a w : Z) (l : list Z) : Z :=
  Z.of_nat (length (filter (λ t, a ≤ t < a + w) l)).

Definition count_upto (a w : Z) (l : list Z) : Z :=
  Z.of_nat (length (filter (λ t, a < t ≤ a + w) l)).

(** From time [t0] on, the recent part of the list stored for
    [identifier] is the recent part of [H]. *)
Definition tracks (w : Z) (identifier : jsval) (this : t) (H : list Z)
    (t0 : Z) : Prop :=
  ∀ now, t0 ≤ now → recent w now (stored this identifier) = recent w now H.

(** No closed interval shorter than [w] holds more than [m] times of [H]. *)
Definition bounded (m w : Z) (H : list Z) : Prop :=
  ∀ lo hi, hi - lo < w → count_between lo hi H ≤ m.

End RateLimiter.

(** ** The fixed-window counter of the specification

    This module does not come from the source: it follows the words of
    the specification (section 4.2), which describes the limiter as a
    per-identifier [{count, windowStart}] record.  It is used only to
    compare its answers with those of [RateLimiter.isAllowed]. *)

Module FixedWindowSpec.

Record RateWindow : Type := Window { count : Z; windowStart : Z }.

Record t : Type :=
  Build { maxRequests : Z; windowMs : Z; windows : gmap jsval RateWindow }.

Definition isAllowed (this : t) (identifier : jsval) (now : Z) : bool * t :=
  let w := default {| count := 0; windowStart := now |}
             (windows this !! identifier) in
  let store w' :=
    {| maxRequests := maxRequests this; windowMs := windowMs this;
       windows := <[identifier := w']> (windows this) |} in
  if bool_decide (now - windowStart w >= windowMs this) then
    (true, store {| count := 1; windowStart := now |})
  else if bool_decide (count w < maxRequests this) then
    (true, store {| count := count w + 1; windowStart := windowStart w |})
  else (false, this).

Fixpoint run (this : t) (calls : list (jsval * Z)) : list bool * t :=
  match calls with
  | [] => ([], this)
  | (identifier, now) :: rest =>
      let '(b, this1) := isAllowed this identifier now in
      let '(bs, this2) := run this1 rest in
      (b :: bs, this2)
  end.

End FixedWindowSpec.


(** ** Reading the answers of a run *)

(** The answers given to the calls of [identifier], in call order. *)
Fixpoint answers_for (identifier : jsval) (calls : list (jsval * Z))
    (results : list bool) : list bool :=
  match calls, results with
  | (i, _) :: calls', b :: results' =>
      if bool_decide (i = identifier)
      then b :: answers_for identifier calls' results'
      else answers_for identifier calls' results'
  | _, _ => []
  end.

(** The calls of [identifier] among [calls]. *)
Definition calls_of (identifier : jsval) (calls : list (jsval * Z))
  : list (jsval * Z) :=
  filter (λ c, c.1 = identifier) calls.

(** ** function throttle

    [throttle(func, delay)] returns a closure over [lastCall], which
    starts at [0].  A call of the closure either applies [func] to its
    arguments and returns the result, or does nothing and returns
    [undefined]. *)

Module Throttle.

(** The variables the returned closure captures. *)
Record t : Type := Build { delay : Z; lastCall : Z }.

(** [throttle(func, delay)], up to [func], which [call] takes. *)
Definition throttle (delay : Z) : t :=
  {| delay := delay; lastCall := 0 |}.

(** One call of the returned function at time [now].  [Some r]: [func]
    was applied to [args] and the call returns its result [r]; [None]:
    [func] was not applied and the call returns [undefined]. *)
Definition call (func : list jsval → jsval) (this : t) (args : list jsval)
    (now : Z) : option jsval * t :=
  if bool_decide (now - lastCall this >= delay this) then
    (Some (func args), {| delay := delay this; lastCall := now |})
  else (None, this).

(** The JavaScript value a call returns. *)
Definition returned (r : option jsval) : jsval := default JUndefined r.

(** A sequence of calls [(args, now)], in order. *)
Fixpoint run (func : list jsval → jsval) (this : t)
    (calls : list (list jsval * Z)) : list (option jsval) * t :=
  match calls with
  | [] => ([], this)
  | (args, now) :: rest =>
      let '(r, this1) := call func this args now in
      let '(rs, this2) := run func this1 rest in
      (r :: rs, this2)
  end.

(** The times of the calls in which [func] was applied. *)
Fixpoint executed (calls : list (list jsval * Z))
    (results : list (option jsval)) : list Z :=
  match calls, results with
  | (_, now) :: calls', r :: results' =>
      if r is Some _ then now :: executed calls' results'
      else executed calls' results'
  | _, _ => []
  end.

End Throttle.

(** ** function promiseAll

    JavaScript runs the reactions of promises one at a time, and the
    reaction of a given promise at most once.  The executor of
    [promiseAll] is the function [promiseAll] below; the two reactions it
    registers per input are [on_fulfilled] and [on_rejected]; the order in
    which the inputs settle is an argument of [run]. *)

Module PromiseAll.

(** How an input settles.  An input that is not a promise is fulfilled
    with itself ([Promise.resolve(promise)]). *)
Inductive input : Type :=
  | Fulfils (value : jsval)
  | Rejects (reason : jsval).

(** An array with holes: [None] is a hole. *)
Abbreviation array := (list (option jsval)).

(** [results[index] = value]: an index beyond the end extends the array,
    leaving holes. *)
Definition array_set (a : array) (index : nat) (value : jsval) : array :=
  if decide (index < length a)%nat then <[index := Some value]> a
  else a ++ replicate (index - length a) None ++ [Some value].

(** The state of the promise that [promiseAll] returns. *)
Inductive promise : Type :=
  | Pending
  | Resolved (results : array)
  | Rejected (reason : jsval).

(** [resolve] and [reject] act on a pending promise only. *)
Definition settle (p outcome : promise) : promise :=
  match p with
  | Pending => outcome
  | _ => p
  end.

(** [promises.length] and the variables of the executor. *)
Record t : Type :=
  Build { len : nat; results : array; completed : nat; returned : promise }.

(** The executor, up to the registration of the reactions. *)
Definition promiseAll (promises : list input) : t :=
  if decide (length promises = 0%nat) then
    {| len := 0; results := []; completed := 0; returned := Resolved [] |}
  else
    {| len := length promises; results := []; completed := 0;
       returned := Pending |}.

(** The reaction [value => { results[index] = value; completed++; ... }]. *)
Definition on_fulfilled (this : t) (index : nat) (value : jsval) : t :=
  let results1 := array_set (results this) index value in
  let completed1 := S (completed this) in
  {| len := len this; results := results1; completed := completed1;
     returned :=
       if decide (completed1 = len this)
       then settle (returned this) (Resolved results1)
       else returned this |}.

(** The reaction [.catch(reject)]. *)
Definition on_rejected (this : t) (reason : jsval) : t :=
  {| len := len this; results := results this; completed := completed this;
     returned := settle (returned this) (Rejected reason) |}.

(** The input at [index] settles and its reaction runs. *)
Definition react (promises : list input) (this : t) (index : nat) : t :=
  match promises !! index with
  | Some (Fulfils value) => on_fulfilled this index value
  | Some (Rejects reason) => on_rejected this reason
  | None => this
  end.

(** [promiseAll(promises)], followed by the reactions of the inputs that
    settle, in the order [order] in which they settle. *)
Definition run (promises : list input) (order : list nat) : t :=
  fold_left (react promises) order (promiseAll promises).

End PromiseAll.

(** ** function debounce

    [debounce(func, delay)] returns a closure over [timeoutId].  The
    timers of the runtime are part of the state: [setTimeout] registers a
    callback under a fresh identifier, [clearTimeout] drops it, and the
    runtime runs a registered callback once, at a moment of its choosing
    (not before [delay] has passed); that moment is an event of [run]. *)

Module Debounce.

(** [timers]: the callbacks registered and not yet run or cleared, each
    with the [args] it captured; [next]: the identifier the next
    [setTimeout] returns. *)
Record t : Type :=
  Build { timeoutId : option nat; timers : gmap nat (list jsval); next : nat }.

(** [debounce(func, delay)]: [timeoutId] starts [undefined]. *)
Definition debounce : t :=
  {| timeoutId := None; timers := ∅; next := 0 |}.

(** [clearTimeout(id)]: nothing happens for [undefined] or for a timer
    that is no longer registered. *)
Definition clearTimeout (id : option nat) (timers : gmap nat (list jsval))
  : gmap nat (list jsval) :=
  match id with
  | Some id => delete id timers
  | None => timers
  end.

(** One call of the returned function with [args]. *)
Definition call (this : t) (args : list jsval) : t :=
  let timers1 := clearTimeout (timeoutId this) (timers this) in
  {| timeoutId := Some (next this);
     timers := <[next this := args]> timers1;
     next := S (next this) |}.

(** The runtime runs the callback of timer [id]: [Some args] when [func]
    is applied to [args], [None] when the timer is not registered. *)
Definition fire (this : t) (id : nat) : option (list jsval) * t :=
  match timers this !! id with
  | Some args =>
      (Some args,
       {| timeoutId := timeoutId this; timers := delete id (timers this);
          next := next this |})
  | None => (None, this)
  end.

Inductive event : Type :=
  | Call (args : list jsval)
  | Fire (id : nat).

(** One event; the log lists the arguments [func] was applied to. *)
Definition step (s : list (list jsval) * t) (e : event)
  : list (list jsval) * t :=
  match e with
  | Call args => (s.1, call s.2 args)
  | Fire id =>
      match fire s.2 id with
      | (Some args, this1) => (s.1 ++ [args], this1)
      | (None, this1) => (s.1, this1)
      end
  end.

Definition run (events : list event) : list (list jsval) * t :=
  fold_left step events ([], debounce).

(** The arguments of the calls among the events, in order. *)
Definition calls (events : list event) : list (list jsval) :=
  omap (λ e, match e with Call args => Some args | Fire _ => None end) events.

End Debounce.

(** ** Windows of calls *)



(** * SimpleCache *)

Section SimpleCacheFacts.

Implicit Types (c : SimpleCache.t) (key k v : jsval) (now : Z).

Lemma get_absent c key now :
  SimpleCache.cache c !! key = None →
  SimpleCache.get c key now = (JNull, c).
Proof. intros Hk. unfold SimpleCache.get. by rewrite Hk. Qed.

Lemma get_live c key it now :
  SimpleCache.cache c !! key = Some it →
  now ≤ SimpleCache.expiresAt it →
  SimpleCache.get c key now = (SimpleCache.value it, c).
Proof.
  intros Hk Hle. unfold SimpleCache.get. rewrite Hk.
  rewrite bool_decide_eq_false_2; [done | lia].
Qed.

Lemma get_expired c key it now :
  SimpleCache.cache c !! key = Some it →
  now > SimpleCache.expiresAt it →
  SimpleCache.get c key now =
    (JNull, {| SimpleCache.cache := delete key (SimpleCache.cache c);
               SimpleCache.ttl := SimpleCache.ttl c |}).
Proof.
  intros Hk Hgt. unfold SimpleCache.get. rewrite Hk.
  by rewrite bool_decide_eq_true_2.
Qed.

Lemma set_lookup c key v now :
  SimpleCache.cache (SimpleCache.set c key v now) !! key =
    Some {| SimpleCache.value := v;
            SimpleCache.expiresAt := now + SimpleCache.ttl c |}.
Proof. unfold SimpleCache.set; simpl. apply lookup_insert_eq. Qed.

Lemma set_get c key v now now' :
  now' ≤ now + SimpleCache.ttl c →
  (SimpleCache.get (SimpleCache.set c key v now) key now').1 = v.
Proof.
  intros Hle.
  by rewrite (get_live _ _ _ _ (set_lookup c key v now) Hle).
Qed.

Lemma delete_cache c key :
  SimpleCache.cache (SimpleCache.delete c key).2 =
    delete key (SimpleCache.cache c).
Proof. done. Qed.

Lemma delete_absent c key :
  SimpleCache.cache c !! key = None → (SimpleCache.delete c key).2 = c.
Proof.
  intros Hk. destruct c as [m d]; simpl in *.
  unfold SimpleCache.delete; simpl. f_equal. by apply delete_id.
Qed.

End SimpleCacheFacts.

(** ** Expiry on read *)

(** C2, as stated, fails at the boundary: the test in [get] is
    [Date.now() > item.expiresAt], so a read performed exactly at
    [expiresAt] still returns the stored value and keeps the entry. *)
Lemma C2_get_at_expiresAt_is_a_hit :
  let c := SimpleCache.set (SimpleCache.constructor (Some 1000))
             (JStr "k") (JNum 7) 0 in
  SimpleCache.cache c !! JStr "k"
    = Some {| SimpleCache.value := JNum 7; SimpleCache.expiresAt := 1000 |}
  ∧ 1000 >= 1000
  ∧ (SimpleCache.get c (JStr "k") 1000).1 = JNum 7
  ∧ (SimpleCache.get c (JStr "k") 1000).1 ≠ JNull
  ∧ SimpleCache.cache (SimpleCache.get c (JStr "k") 1000).2 !! JStr "k" ≠ None.
Proof. vm_compute. repeat split; congruence. Qed.

(** C2 (amended): for every key present in the cache, a [get] at a time
    [now > expiresAt] removes the entry from the store and returns [null];
    a [get] at a time [now <= expiresAt], the instant [expiresAt] included,
    returns the stored value and leaves the cache as it was. *)
Theorem C2_get_expiry (c : SimpleCache.t) (key : jsval)
    (it : SimpleCache.item) (now : Z) :
  SimpleCache.cache c !! key = Some it →
  (now > SimpleCache.expiresAt it →
     (SimpleCache.get c key now).1 = JNull
     ∧ SimpleCache.cache (SimpleCache.get c key now).2
         = delete key (SimpleCache.cache c)
     ∧ SimpleCache.cache (SimpleCache.get c key now).2 !! key = None)
  ∧ (now ≤ SimpleCache.expiresAt it →
     SimpleCache.get c key now = (SimpleCache.value it, c)).
Proof.
  intros Hk. split.
  - intros Hgt. rewrite (get_expired _ _ _ _ Hk Hgt); simpl.
    repeat split. apply lookup_delete_eq.
  - intros Hle. by apply get_live.
Qed.

Lemma C2_get_expiry_witness :
  let c := SimpleCache.set (SimpleCache.constructor (Some 1000))
             (JStr "k") (JNum 7) 0 in
  (SimpleCache.get c (JStr "k") 1001).1 = JNull
  ∧ SimpleCache.get c (JStr "k") 1000 = (JNum 7, c).
Proof.
  intros c.
  destruct (C2_get_expiry c (JStr "k")
              {| SimpleCache.value := JNum 7; SimpleCache.expiresAt := 1000 |}
              1001 eq_refl) as [Hexp _].
  destruct (C2_get_expiry c (JStr "k")
              {| SimpleCache.value := JNum 7; SimpleCache.expiresAt := 1000 |}
              1000 eq_refl) as [_ Hlive].
  split.
  - apply Hexp. simpl. lia.
  - apply Hlive. simpl. lia.
Defined.

(** ** Writing *)

(** C3, as stated, fails: [set] has the two parameters [key] and [value]
    only, so a third actual argument is dropped and the entry expires at
    [now + this.ttl], here [60000] and not [0 + 1000]. *)
Lemma C3_set_drops_ttl_argument :
  let c := SimpleCache.call_set (SimpleCache.constructor (Some 60000))
             [JStr "k"; JNum 1; JNum 1000] 0 in
  SimpleCache.cache c !! JStr "k"
    = Some {| SimpleCache.value := JNum 1; SimpleCache.expiresAt := 60000 |}
  ∧ SimpleCache.cache c !! JStr "k"
    ≠ Some {| SimpleCache.value := JNum 1; SimpleCache.expiresAt := 0 + 1000 |}.
Proof. vm_compute. split; congruence. Qed.

(** C3 (amended): [set] takes no per-call TTL.  For every key and value,
    with or without further arguments, [set] creates or overwrites the
    entry of the key with the given value and
    [expiresAt = now() + ttl], the TTL the cache was constructed with;
    the entries of the other keys and the TTL are unchanged. *)
Theorem C3_set_uses_configured_ttl (c : SimpleCache.t) (key value : jsval)
    (extra : list jsval) (now : Z) :
  let c' := SimpleCache.call_set c (key :: value :: extra) now in
  c' = SimpleCache.set c key value now
  ∧ SimpleCache.cache c' !! key
      = Some {| SimpleCache.value := value;
                SimpleCache.expiresAt := now + SimpleCache.ttl c |}
  ∧ (∀ k, k ≠ key → SimpleCache.cache c' !! k = SimpleCache.cache c !! k)
  ∧ SimpleCache.ttl c' = SimpleCache.ttl c.
Proof.
  simpl. unfold SimpleCache.call_set, arg; simpl. repeat split.
  - apply lookup_insert_eq.
  - intros k Hne. by apply lookup_insert_ne.
Qed.

Lemma C3_set_uses_configured_ttl_witness :
  SimpleCache.cache
    (SimpleCache.call_set (SimpleCache.constructor None)
       [JStr "a"; JNum 1; JNum 5] 10) !! JStr "b" = None.
Proof.
  destruct (C3_set_uses_configured_ttl (SimpleCache.constructor None)
              (JStr "a") (JNum 1) [JNum 5] 10) as (_ & _ & Hother & _).
  rewrite (Hother (JStr "b")); [reflexivity | discriminate].
Defined.

(** ** Deleting *)

(** C4, as stated, fails: the body of [delete] does not return the result
    of [Map.prototype.delete], so the method returns [undefined] whether or
    not an entry was removed. *)
Lemma C4_delete_returns_undefined :
  let c := SimpleCache.set (SimpleCache.constructor None)
             (JStr "k") (JNum 1) 0 in
  SimpleCache.cache c !! JStr "k" ≠ None
  ∧ (SimpleCache.delete c (JStr "k")).1 = JUndefined
  ∧ (SimpleCache.delete c (JStr "k")).1 ≠ JBool true
  ∧ (SimpleCache.delete (SimpleCache.delete c (JStr "k")).2 (JStr "k")).1
      ≠ JBool false.
Proof. vm_compute. repeat split; congruence. Qed.

(** C4 (amended): for every key, [delete(key)] removes the entry if present
    and leaves every other entry alone; it returns [undefined] in every
    case, raising nothing; on an absent key the cache is unchanged, and a
    second [delete] in a row changes nothing more. *)
Theorem C4_delete_removes (c : SimpleCache.t) (key : jsval) :
  let r := SimpleCache.delete c key in
  r.1 = JUndefined
  ∧ SimpleCache.cache r.2 !! key = None
  ∧ (∀ k, k ≠ key → SimpleCache.cache r.2 !! k = SimpleCache.cache c !! k)
  ∧ SimpleCache.ttl r.2 = SimpleCache.ttl c
  ∧ (SimpleCache.cache c !! key = None → r.2 = c)
  ∧ SimpleCache.delete r.2 key = (JUndefined, r.2).
Proof.
  cbv zeta. repeat split.
  - rewrite delete_cache. apply lookup_delete_eq.
  - intros k Hne. rewrite delete_cache. by apply lookup_delete_ne.
  - apply delete_absent.
  - rewrite (surjective_pairing (SimpleCache.delete _ key)). f_equal.
    apply delete_absent. rewrite delete_cache. apply lookup_delete_eq.
Qed.

Lemma C4_delete_removes_witness :
  (SimpleCache.delete (SimpleCache.constructor None) (JStr "k")).2
    = SimpleCache.constructor None.
Proof.
  destruct (C4_delete_removes (SimpleCache.constructor None) (JStr "k"))
    as (_ & _ & _ & _ & Habsent & _).
  apply Habsent. reflexivity.
Defined.

(** ** Reading back *)

(** C5, as stated, fails: [set] drops its third argument, and the entry
    lives for the TTL the cache was constructed with.  In a cache
    constructed with the TTL [-5], [set(k, 7, 1000)] followed by [get(k)]
    at the same instant returns [null], although the [ttl] passed to
    [set] is positive. *)
Lemma C5_negative_ttl_breaks_round_trip :
  let c := SimpleCache.call_set (SimpleCache.constructor (Some (-5)))
             [JStr "k"; JNum 7; JNum 1000] 0 in
  0 < 1000
  ∧ (SimpleCache.get c (JStr "k") 0).1 = JNull
  ∧ (SimpleCache.get c (JStr "k") 0).1 ≠ JNum 7.
Proof. vm_compute. repeat split; congruence. Qed.

(** C5 (amended): in every cache whose configured TTL is not negative,
    for every key [k] and value [v], [set(k, v)], with or without further
    arguments such as a [ttl], followed by [get(k)] at the same instant
    returns exactly [v] and leaves the entry in place; the [ttl] passed to
    [set] plays no part.  In a cache whose configured TTL is negative the
    same [get] returns [null]. *)
Theorem C5_round_trip_needs_configured_ttl (c : SimpleCache.t) (k v : jsval)
    (extra : list jsval) (now : Z) :
  let c1 := SimpleCache.call_set c (k :: v :: extra) now in
  (0 ≤ SimpleCache.ttl c → SimpleCache.get c1 k now = (v, c1))
  ∧ (SimpleCache.ttl c < 0 → (SimpleCache.get c1 k now).1 = JNull).
Proof.
  cbv zeta. unfold SimpleCache.call_set, arg; simpl. split.
  - intros Hcfg.
    apply (get_live _ _ _ _ (set_lookup c k v now)). simpl. lia.
  - intros Hcfg.
    rewrite (get_expired _ _ _ _ (set_lookup c k v now)) by (simpl; lia).
    done.
Qed.

Lemma C5_round_trip_needs_configured_ttl_witness :
  let c0 := SimpleCache.call_set (SimpleCache.constructor (Some 0))
              [JStr "greeting"; JStr "hello"; JNum 500] 0 in
  let c1 := SimpleCache.call_set (SimpleCache.constructor (Some (-1)))
              [JStr "greeting"; JStr "hello"; JNum 500] 0 in
  SimpleCache.get c0 (JStr "greeting") 0 = (JStr "hello", c0)
  ∧ (SimpleCache.get c1 (JStr "greeting") 0).1 = JNull.
Proof.
  intros c0 c1. split.
  - apply (proj1 (C5_round_trip_needs_configured_ttl
                    (SimpleCache.constructor (Some 0))
                    (JStr "greeting") (JStr "hello") [JNum 500] 0)).
    simpl. lia.
  - apply (proj2 (C5_round_trip_needs_configured_ttl
                    (SimpleCache.constructor (Some (-1)))
                    (JStr "greeting") (JStr "hello") [JNum 500] 0)).
    simpl. lia.
Defined.

(** ** Keys *)

(** C7, as stated, fails: no method inspects its key.  Under the empty
    string, and under a key that is not a string, [set] stores, [get]
    reads and [delete] deletes like under any other key. *)
Lemma C7_empty_key_is_accepted :
  let c := SimpleCache.set (SimpleCache.constructor None)
             (JStr EmptyString) (JNum 1) 0 in
  let d := SimpleCache.set c (JNum 5) (JNum 2) 0 in
  SimpleCache.cache c !! JStr EmptyString
    = Some {| SimpleCache.value := JNum 1; SimpleCache.expiresAt := 60000 |}
  ∧ SimpleCache.get c (JStr EmptyString) 0 = (JNum 1, c)
  ∧ SimpleCache.delete c (JStr EmptyString)
    = (JUndefined, SimpleCache.constructor None)
  ∧ SimpleCache.get d (JNum 5) 0 = (JNum 2, d)
  ∧ SimpleCache.delete d (JNum 5) = (JUndefined, c).
Proof. vm_compute. repeat split. Qed.

(** C7 (amended): [set], [get] and [delete] validate nothing.  For every
    key, the empty string and values that are not strings included, [set]
    stores the entry under that key, [get] reads it back while it has not
    expired, and [delete] removes it; each returns normally. *)
Theorem C7_no_key_validation (c : SimpleCache.t) (key v : jsval)
    (now now' : Z) :
  let c1 := SimpleCache.set c key v now in
  SimpleCache.cache c1 !! key
    = Some {| SimpleCache.value := v;
              SimpleCache.expiresAt := now + SimpleCache.ttl c |}
  ∧ (now' ≤ now + SimpleCache.ttl c →
     SimpleCache.get c1 key now' = (v, c1))
  ∧ (SimpleCache.delete c1 key).1 = JUndefined
  ∧ SimpleCache.cache (SimpleCache.delete c1 key).2 !! key = None.
Proof.
  cbv zeta. repeat split.
  - apply set_lookup.
  - intros Hle. by apply (get_live _ _ _ _ (set_lookup c key v now)).
  - rewrite delete_cache. apply lookup_delete_eq.
Qed.

Lemma C7_no_key_validation_witness :
  let c1 := SimpleCache.set (SimpleCache.constructor None)
              (JStr EmptyString) (JNum 1) 0 in
  SimpleCache.get c1 (JStr EmptyString) 60000 = (JNum 1, c1).
Proof.
  intros c1.
  destruct (C7_no_key_validation (SimpleCache.constructor None)
              (JStr EmptyString) (JNum 1) 0 60000) as (_ & Hget & _).
  apply Hget. simpl. lia.
Defined.

(** ** The sentinel *)

(** C10: the result of [get] on a miss is [null] itself, so for a key
    stored with the value [null], [get] before expiry returns the same
    result as [get] on an absent key. *)
Theorem C10_null_value_looks_like_miss (c : SimpleCache.t) (k k' : jsval)
    (e now : Z) :
  SimpleCache.cache c !! k
    = Some {| SimpleCache.value := JNull; SimpleCache.expiresAt := e |} →
  now ≤ e →
  SimpleCache.cache c !! k' = None →
  (SimpleCache.get c k' now).1 = JNull
  ∧ (SimpleCache.get c k now).1 = (SimpleCache.get c k' now).1.
Proof.
  intros Hk Hle Hk'.
  rewrite (get_absent _ _ _ Hk'), (get_live _ _ _ _ Hk Hle). done.
Qed.

Lemma C10_null_value_looks_like_miss_witness :
  let c := SimpleCache.set (SimpleCache.constructor None)
             (JStr "k") JNull 0 in
  (SimpleCache.get c (JStr "absent") 10).1 = JNull
  ∧ (SimpleCache.get c (JStr "k") 10).1
    = (SimpleCache.get c (JStr "absent") 10).1.
Proof.
  intros c.
  apply (C10_null_value_looks_like_miss c (JStr "k") (JStr "absent") 60000 10).
  - reflexivity.
  - lia.
  - reflexivity.
Defined.


(** * RateLimiter *)

Section RateLimiterFacts.

Implicit Types (rl : RateLimiter.t) (id i : jsval) (now a lo hi : Z)
  (H l : list Z) (calls : list (jsval * Z)).

Lemma isAllowed_admit rl id now :
  Z.of_nat (length (RateLimiter.recent (RateLimiter.windowMs rl) now
                      (RateLimiter.stored rl id)))
    < RateLimiter.maxRequests rl →
  RateLimiter.isAllowed rl id now =
    (true,
     {| RateLimiter.maxRequests := RateLimiter.maxRequests rl;
        RateLimiter.windowMs := RateLimiter.windowMs rl;
        RateLimiter.requests :=
          <[id := RateLimiter.recent (RateLimiter.windowMs rl) now
                    (RateLimiter.stored rl id) ++ [now]]>
            (RateLimiter.requests rl) |}).
Proof.
  intros Hlt. unfold RateLimiter.isAllowed, RateLimiter.stored in *.
  rewrite bool_decide_eq_false_2; [done | lia].
Qed.

Lemma isAllowed_reject rl id now :
  RateLimiter.maxRequests rl
    ≤ Z.of_nat (length (RateLimiter.recent (RateLimiter.windowMs rl) now
                          (RateLimiter.stored rl id))) →
  RateLimiter.isAllowed rl id now = (false, rl).
Proof.
  intros Hge. unfold RateLimiter.isAllowed, RateLimiter.stored in *.
  rewrite bool_decide_eq_true_2; [done | lia].
Qed.

(** The call decides by comparing the number of recent timestamps with
    the limit, whatever the state. *)
Lemma isAllowed_cases rl id now :
  let r := RateLimiter.recent (RateLimiter.windowMs rl) now
             (RateLimiter.stored rl id) in
  (Z.of_nat (length r) < RateLimiter.maxRequests rl
   ∧ (RateLimiter.isAllowed rl id now).1 = true
   ∧ RateLimiter.stored (RateLimiter.isAllowed rl id now).2 id = r ++ [now])
  ∨ (RateLimiter.maxRequests rl ≤ Z.of_nat (length r)
     ∧ RateLimiter.isAllowed rl id now = (false, rl)).
Proof.
  cbv zeta.
  destruct (decide (Z.of_nat (length (RateLimiter.recent
      (RateLimiter.windowMs rl) now (RateLimiter.stored rl id)))
      < RateLimiter.maxRequests rl)) as [Hlt|Hge].
  - left. rewrite (isAllowed_admit _ _ _ Hlt). repeat split; [done|].
    unfold RateLimiter.stored at 1; simpl. by rewrite lookup_insert_eq.
  - right. split; [lia|]. apply isAllowed_reject. lia.
Qed.

Lemma isAllowed_config rl id now :
  RateLimiter.maxRequests (RateLimiter.isAllowed rl id now).2
    = RateLimiter.maxRequests rl
  ∧ RateLimiter.windowMs (RateLimiter.isAllowed rl id now).2
    = RateLimiter.windowMs rl.
Proof. unfold RateLimiter.isAllowed. by case_bool_decide. Qed.

Lemma isAllowed_other rl i id now :
  i ≠ id →
  RateLimiter.stored (RateLimiter.isAllowed rl i now).2 id
    = RateLimiter.stored rl id.
Proof.
  intros Hne. unfold RateLimiter.isAllowed. case_bool_decide; [done|].
  unfold RateLimiter.stored; simpl. by rewrite lookup_insert_ne.
Qed.

Lemma recent_app w now l1 l2 :
  RateLimiter.recent w now (l1 ++ l2)
    = RateLimiter.recent w now l1 ++ RateLimiter.recent w now l2.
Proof. apply filter_app. Qed.

Lemma recent_later w now now' l :
  now ≤ now' →
  RateLimiter.recent w now' (RateLimiter.recent w now l)
    = RateLimiter.recent w now' l.
Proof.
  intros Hle. unfold RateLimiter.recent.
  apply list_filter_filter_l. intros t. lia.
Qed.

Lemma recent_all_old w now l :
  Forall (λ t, now - t >= w) l → RateLimiter.recent w now l = [].
Proof.
  induction 1 as [|t l Ht _ IH]; [done|].
  unfold RateLimiter.recent in *.
  rewrite filter_cons_False; [done | lia].
Qed.

Lemma recent_elem w now l t :
  t ∈ RateLimiter.recent w now l → now - t < w.
Proof. unfold RateLimiter.recent. rewrite list_elem_of_filter. tauto. Qed.

Lemma length_filter_mono (P Q : Z → Prop)
    `{!∀ x, Decision (P x), !∀ x, Decision (Q x)} l :
  (∀ x, P x → Q x) → (length (filter P l) ≤ length (filter Q l))%nat.
Proof.
  intros HPQ. rewrite <- (list_filter_filter_l P Q l HPQ).
  apply length_filter.
Qed.

End RateLimiterFacts.

(** ** The sliding-window invariant

    For one identifier, [H] is the list of the times at which its calls
    were admitted so far.  Two facts are carried along a run whose times
    do not decrease:
    - at every later time the recent part of the stored list is the
      recent part of [H] (a rejected call leaves stale timestamps in the
      store, which the next [filter] drops);
    - every closed interval shorter than the window contains at most
      [maxRequests] times of [H]. *)

Section SlidingWindow.

Variables (m w : Z) (id : jsval).

Local Abbreviation tracks := (RateLimiter.tracks w id).
Local Abbreviation bounded := (RateLimiter.bounded m w).

Lemma bounded_nil : 0 ≤ m → bounded [].
Proof. intros Hm lo hi _. unfold RateLimiter.count_between. simpl. lia. Qed.

Lemma bounded_admit (H : list Z) (now : Z) :
  bounded H →
  Z.of_nat (length (RateLimiter.recent w now H)) < m →
  bounded (H ++ [now]).
Proof.
  intros HB Hlt lo hi Hlen. unfold RateLimiter.count_between.
  rewrite filter_app, length_app.
  destruct (decide (lo ≤ now ≤ hi)) as [Hin|Hout].
  - rewrite (filter_cons_True _ now []) by done. simpl.
    assert (length (filter (λ t, (lo ≤ t ≤ hi)%Z) H)
            ≤ length (RateLimiter.recent w now H))%nat as Hmono.
    { apply length_filter_mono. intros t Ht. lia. }
    lia.
  - rewrite (filter_cons_False _ now []) by done. simpl.
    specialize (HB lo hi Hlen). unfold RateLimiter.count_between in HB. lia.
Qed.

Lemma tracks_admit (rl : RateLimiter.t) (H : list Z) (t0 now : Z) :
  RateLimiter.windowMs rl = w →
  tracks rl H t0 → t0 ≤ now →
  RateLimiter.stored (RateLimiter.isAllowed rl id now).2 id
    = RateLimiter.recent w now (RateLimiter.stored rl id) ++ [now] →
  tracks (RateLimiter.isAllowed rl id now).2 (H ++ [now]) now.
Proof.
  intros Hw HT Ht0 Hst now' Hle. rewrite Hst, !recent_app.
  rewrite (recent_later _ _ _ _ Hle). f_equal. apply HT. lia.
Qed.

Lemma tracks_later (rl : RateLimiter.t) (H : list Z) (t0 t1 : Z) :
  tracks rl H t0 → t0 ≤ t1 → tracks rl H t1.
Proof. intros HT Hle now Hnow. apply HT. lia. Qed.

Lemma run_bounded (calls : list (jsval * Z)) :
  ∀ (rl : RateLimiter.t) (H : list Z) (t0 : Z),
    RateLimiter.maxRequests rl = m →
    RateLimiter.windowMs rl = w →
    tracks rl H t0 →
    bounded H →
    Forall (λ c, t0 ≤ c.2) calls →
    StronglySorted Z.le (calls.*2) →
    bounded (H ++ RateLimiter.admitted id calls (RateLimiter.run rl calls).1).
Proof.
  induction calls as [|[i now] calls IH]; intros rl H t0 Hm Hw HT HB Hge Hs.
  - simpl. by rewrite app_nil_r.
  - apply Forall_cons in Hge as [Hnow Hge]. simpl in Hnow.
    rewrite fmap_cons in Hs. apply StronglySorted_inv in Hs as [Hs Hhd].
    assert (Forall (λ c : jsval * Z, now ≤ c.2) calls) as Hge'.
    { rewrite Forall_fmap in Hhd. exact Hhd. }
    destruct (isAllowed_config rl i now) as [Hm' Hw'].
    simpl.
    destruct (RateLimiter.isAllowed rl i now) as [b rl1] eqn:Hcall.
    destruct (RateLimiter.run rl1 calls) as [bs rl2] eqn:Hrun.
    simpl in *.
    assert (bs = (RateLimiter.run rl1 calls).1) as -> by by rewrite Hrun.
    destruct (decide (i = id)) as [->|Hne].
    + rewrite bool_decide_eq_true_2 by done. simpl.
      destruct (isAllowed_cases rl id now) as [(Hlt & Hb & Hst)|[Hle Hrej]];
        rewrite Hcall in *; simpl in *.
      * subst b. rewrite Hw in *. rewrite Hm in *.
        rewrite (HT now Hnow) in Hlt.
        replace (H ++ now :: RateLimiter.admitted id calls
                               (RateLimiter.run rl1 calls).1)
          with ((H ++ [now]) ++ RateLimiter.admitted id calls
                                  (RateLimiter.run rl1 calls).1)
          by by rewrite <- app_assoc.
        apply (IH rl1 (H ++ [now]) now); try congruence; try done.
        -- pose proof (tracks_admit rl H t0 now Hw HT Hnow) as HT'.
           rewrite Hcall in HT'. simpl in HT'. apply HT'.
           exact Hst.
        -- by apply bounded_admit.
      * injection Hrej as -> ->.
        apply (IH rl H now); try done. by apply (tracks_later _ _ t0).
    + rewrite bool_decide_eq_false_2 by done. simpl.
      apply (IH rl1 H now); try congruence; try done.
      intros now' Hle. pose proof (isAllowed_other rl i id now Hne) as Ho.
      rewrite Hcall in Ho. simpl in Ho. rewrite Ho. apply HT. lia.
Qed.

End SlidingWindow.

(** ** Runs from a fresh limiter *)

Section Runs.

Implicit Types (rl : RateLimiter.t) (id : jsval) (now a m w : Z)
  (calls : list (jsval * Z)).

Lemma run_fresh_bounded m w id calls :
  0 ≤ m →
  Sorted Z.le (calls.*2) →
  RateLimiter.bounded m w
    (RateLimiter.admitted id calls
       (RateLimiter.run (RateLimiter.constructor m w) calls).1).
Proof.
  intros Hm Hs. apply Sorted_StronglySorted in Hs; [|apply _].
  destruct calls as [|[i t0] calls]; [by apply bounded_nil|].
  apply (run_bounded m w id ((i, t0) :: calls)
           (RateLimiter.constructor m w) [] t0); try done.
  - by apply bounded_nil.
  - rewrite fmap_cons in Hs. apply StronglySorted_inv in Hs as [_ Hhd].
    constructor; [simpl; lia|]. by rewrite Forall_fmap in Hhd.
Qed.

Lemma count_from_between a w (l : list Z) :
  RateLimiter.count_from a w l = RateLimiter.count_between a (a + w - 1) l.
Proof.
  unfold RateLimiter.count_from, RateLimiter.count_between.
  do 2 f_equal. apply list_filter_iff. intros t. lia.
Qed.

Lemma count_upto_between a w (l : list Z) :
  RateLimiter.count_upto a w l = RateLimiter.count_between (a + 1) (a + w) l.
Proof.
  unfold RateLimiter.count_upto, RateLimiter.count_between.
  do 2 f_equal. apply list_filter_iff. intros t. lia.
Qed.

Lemma run_fresh_window m w id calls a :
  0 ≤ m →
  Sorted Z.le (calls.*2) →
  let times := RateLimiter.admitted id calls
                 (RateLimiter.run (RateLimiter.constructor m w) calls).1 in
  RateLimiter.count_from a w times ≤ m
  ∧ RateLimiter.count_upto a w times ≤ m.
Proof.
  intros Hm Hs times.
  pose proof (run_fresh_bounded m w id calls Hm Hs) as HB. fold times in HB.
  rewrite count_from_between, count_upto_between.
  split; apply HB; lia.
Qed.




(** A limit that is not positive rejects everything and records nothing. *)
Lemma run_no_quota rl calls :
  RateLimiter.maxRequests rl ≤ 0 →
  RateLimiter.run rl calls = (replicate (length calls) false, rl).
Proof.
  intros Hm. induction calls as [|[i now] calls IH]; [done|]. simpl.
  rewrite isAllowed_reject by lia. by rewrite IH.
Qed.

End Runs.

(** ** What one call does *)

(** C1, as stated, fails: the limiter keeps a list of timestamps per
    identifier, not a window start with a count.  With [maxRequests = 2]
    and [windowMs = 1000], after admitted calls at [0] and [999] the oldest
    timestamp on record is [0]; the call at [1000] is admitted, but the
    timestamp [999] stays on record, so the state holds two timestamps and
    not the single one of a fresh window, and the call at [1001] is
    rejected, where the fixed-window counter admits it. *)
Lemma C1_expired_start_is_not_a_reset :
  let rl := (RateLimiter.run (RateLimiter.constructor 2 1000)
               [(JStr "x", 0); (JStr "x", 999)]).2 in
  let calls := [(JStr "x", 0); (JStr "x", 999);
                (JStr "x", 1000); (JStr "x", 1001)] in
  RateLimiter.stored rl (JStr "x") = [0; 999]
  ∧ 1000 - 0 >= RateLimiter.windowMs rl
  ∧ (RateLimiter.isAllowed rl (JStr "x") 1000).1 = true
  ∧ RateLimiter.stored (RateLimiter.isAllowed rl (JStr "x") 1000).2 (JStr "x")
    = [999; 1000]
  ∧ RateLimiter.stored (RateLimiter.isAllowed rl (JStr "x") 1000).2 (JStr "x")
    ≠ [1000]
  ∧ (RateLimiter.run (RateLimiter.constructor 2 1000) calls).1
    = [true; true; true; false]
  ∧ (FixedWindowSpec.run
       {| FixedWindowSpec.maxRequests := 2; FixedWindowSpec.windowMs := 1000;
          FixedWindowSpec.windows := ∅ |} calls).1
    = [true; true; true; true].
Proof. vm_compute. repeat split; congruence. Qed.

(** C1 (amended): a call to [isAllowed] at time [now] drops from the list
    stored for the identifier the timestamps [t] with
    [now - t >= windowMs] and keeps the others.  When all of them are
    dropped and [maxRequests >= 1], the state of the identifier becomes the
    single timestamp [now] (count 1) and the call returns [true].  The
    timestamps that are kept still count: the call returns [true] and
    appends [now] when fewer than [maxRequests] are kept, and otherwise
    returns [false] and changes nothing.  The algorithm is a sliding-window
    log and not a fixed-window counter: over calls at non-decreasing times
    on a fresh limiter, no more than [maxRequests] calls of an identifier
    are admitted within any [windowMs] milliseconds. *)
Theorem C1_expired_timestamps_are_dropped (rl : RateLimiter.t) (id : jsval)
    (now : Z) :
  let kept := RateLimiter.recent (RateLimiter.windowMs rl) now
                (RateLimiter.stored rl id) in
  (∀ t, t ∈ kept ↔
        t ∈ RateLimiter.stored rl id ∧ ¬ now - t >= RateLimiter.windowMs rl)
  ∧ (Forall (λ t, now - t >= RateLimiter.windowMs rl)
       (RateLimiter.stored rl id) →
     1 ≤ RateLimiter.maxRequests rl →
     (RateLimiter.isAllowed rl id now).1 = true
     ∧ RateLimiter.stored (RateLimiter.isAllowed rl id now).2 id = [now])
  ∧ (Z.of_nat (length kept) < RateLimiter.maxRequests rl →
     (RateLimiter.isAllowed rl id now).1 = true
     ∧ RateLimiter.stored (RateLimiter.isAllowed rl id now).2 id
       = kept ++ [now])
  ∧ (RateLimiter.maxRequests rl ≤ Z.of_nat (length kept) →
     RateLimiter.isAllowed rl id now = (false, rl))
  ∧ (∀ calls a,
       0 ≤ RateLimiter.maxRequests rl →
       Sorted Z.le (calls.*2) →
       RateLimiter.count_from a (RateLimiter.windowMs rl)
         (RateLimiter.admitted id calls
            (RateLimiter.run
               (RateLimiter.constructor (RateLimiter.maxRequests rl)
                  (RateLimiter.windowMs rl)) calls).1)
       ≤ RateLimiter.maxRequests rl).
Proof.
  intros kept. split; [|split; [|split; [|split]]].
  - intros t. unfold kept, RateLimiter.recent.
    rewrite list_elem_of_filter. split; intros [? ?]; split; try done; lia.
  - intros Hold Hm.
    destruct (isAllowed_cases rl id now) as [(_ & Hb & Hst)|[Hle _]];
      rewrite (recent_all_old _ _ _ Hold) in *.
    + done.
    + simpl in Hle. lia.
  - intros Hlt.
    destruct (isAllowed_cases rl id now) as [(_ & Hb & Hst)|[Hle _]].
    + done.
    + fold kept in Hle. lia.
  - intros Hle. by apply isAllowed_reject.
  - intros calls a Hm Hs.
    by apply (run_fresh_window _ _ id calls a Hm Hs).
Qed.

Lemma C1_expired_timestamps_are_dropped_witness :
  let rl := {| RateLimiter.maxRequests := 1; RateLimiter.windowMs := 1000;
               RateLimiter.requests := {[ JStr "x" := [0] ]} |} in
  let calls := [(JStr "x", 0); (JStr "x", 999); (JStr "x", 1000)] in
  ((RateLimiter.isAllowed rl (JStr "x") 1000).1 = true
   ∧ RateLimiter.stored (RateLimiter.isAllowed rl (JStr "x") 1000).2
       (JStr "x") = [1000])
  ∧ RateLimiter.isAllowed rl (JStr "x") 999 = (false, rl)
  ∧ RateLimiter.count_from 0 1000
      (RateLimiter.admitted (JStr "x") calls
         (RateLimiter.run (RateLimiter.constructor 1 1000) calls).1) ≤ 1.
Proof.
  intros rl calls.
  destruct (C1_expired_timestamps_are_dropped rl (JStr "x") 1000)
    as (_ & Hreset & _).
  destruct (C1_expired_timestamps_are_dropped rl (JStr "x") 999)
    as (_ & _ & _ & Hreject & Hwindow).
  split; [|split].
  - apply Hreset.
    + repeat constructor. simpl. lia.
    + simpl. lia.
  - apply Hreject. vm_compute. discriminate.
  - apply (Hwindow calls 0).
    + simpl. lia.
    + repeat (constructor; try (simpl; lia)).
Defined.

(** ** Quota per window *)

(** C9: for every identifier and every sequence of [isAllowed] calls at
    non-decreasing times on a limiter with [maxRequests >= 0], at most
    [maxRequests] of the calls whose times fall within any half-open
    interval of length [windowMs], [a, a + windowMs) or
    (a, a + windowMs], return [true]; and whenever a call is admitted, the
    list stored for the identifier is the timestamps newer than
    [now - windowMs] followed by [now]. *)
Theorem C9_sliding_window_bound (m w : Z) (id : jsval)
    (calls : list (jsval * Z)) (a : Z) :
  0 ≤ m →
  Sorted Z.le (calls.*2) →
  let results := (RateLimiter.run (RateLimiter.constructor m w) calls).1 in
  RateLimiter.count_from a w (RateLimiter.admitted id calls results) ≤ m
  ∧ RateLimiter.count_upto a w (RateLimiter.admitted id calls results) ≤ m
  ∧ (∀ (rl : RateLimiter.t) (now : Z),
       (RateLimiter.isAllowed rl id now).1 = true →
       ∃ kept,
         RateLimiter.stored (RateLimiter.isAllowed rl id now).2 id
           = kept ++ [now]
         ∧ Forall (λ t, now - RateLimiter.windowMs rl < t) kept
         ∧ ∀ t, t ∈ RateLimiter.stored rl id →
                now - RateLimiter.windowMs rl < t → t ∈ kept).
Proof.
  intros Hm Hs results.
  destruct (run_fresh_window m w id calls a Hm Hs) as [Hfrom Hupto].
  split; [exact Hfrom | split; [exact Hupto |]].
  intros rl now Hb.
  destruct (isAllowed_cases rl id now) as [(_ & _ & Hst)|[_ Hrej]].
  - eexists. split; [exact Hst | split].
    + apply Forall_forall. intros t Ht. apply recent_elem in Ht. lia.
    + intros t Ht Hnew. unfold RateLimiter.recent.
      apply list_elem_of_filter. split; [lia | done].
  - rewrite Hrej in Hb. discriminate.
Qed.

Lemma C9_sliding_window_bound_witness :
  let calls := [(JStr "x", 0); (JStr "y", 500); (JStr "x", 999);
                (JStr "x", 1000); (JStr "x", 1001)] in
  let results := (RateLimiter.run (RateLimiter.constructor 2 1000) calls).1 in
  RateLimiter.count_from 999 1000
    (RateLimiter.admitted (JStr "x") calls results) ≤ 2
  ∧ RateLimiter.count_upto 0 1000
      (RateLimiter.admitted (JStr "x") calls results) ≤ 2.
Proof.
  intros calls results.
  destruct (C9_sliding_window_bound 2 1000 (JStr "x") calls 999)
    as (Hfrom & _ & _).
  { lia. }
  { repeat (constructor; try (simpl; lia)). }
  destruct (C9_sliding_window_bound 2 1000 (JStr "x") calls 0)
    as (_ & Hupto & _).
  { lia. }
  { repeat (constructor; try (simpl; lia)). }
  split; [exact Hfrom | exact Hupto].
Defined.

(** * Construction *)

(** C8, as stated, fails: both constructors store their arguments as they
    are.  A cache with TTL [-5] or [0] and a limiter with
    [maxRequests = 0] and [windowMs = -1] are constructed, and later calls
    on them return normally. *)
Lemma C8_nonpositive_configuration_is_accepted :
  SimpleCache.constructor (Some (-5))
    = {| SimpleCache.cache := ∅; SimpleCache.ttl := -5 |}
  ∧ SimpleCache.constructor (Some 0)
    = {| SimpleCache.cache := ∅; SimpleCache.ttl := 0 |}
  ∧ RateLimiter.constructor 0 (-1)
    = {| RateLimiter.maxRequests := 0; RateLimiter.windowMs := -1;
         RateLimiter.requests := ∅ |}
  ∧ RateLimiter.isAllowed (RateLimiter.constructor 0 (-1)) (JStr "x") 0
    = (false, RateLimiter.constructor 0 (-1))
  ∧ SimpleCache.get
      (SimpleCache.set (SimpleCache.constructor (Some (-5)))
         (JStr "k") (JNum 1) 0) (JStr "k") 0
    = (JNull, SimpleCache.constructor (Some (-5))).
Proof. vm_compute. repeat split. Qed.

(** C8 (amended): neither constructor checks its arguments.  For every
    configuration value, non-positive ones included, construction returns
    an empty object holding the value as given, and no later call fails
    either: a limiter whose [maxRequests] is not positive rejects every
    call and records nothing, and a cache whose TTL is negative stores
    entries that have already expired, so that a [get] at the time of the
    [set] or later returns [null]. *)
Theorem C8_no_configuration_check (ttl m w : Z) :
  SimpleCache.constructor (Some ttl)
    = {| SimpleCache.cache := ∅; SimpleCache.ttl := ttl |}
  ∧ RateLimiter.constructor m w
    = {| RateLimiter.maxRequests := m; RateLimiter.windowMs := w;
         RateLimiter.requests := ∅ |}
  ∧ (m ≤ 0 →
     ∀ calls,
       RateLimiter.run (RateLimiter.constructor m w) calls
       = (replicate (length calls) false, RateLimiter.constructor m w))
  ∧ (ttl < 0 →
     ∀ (k v : jsval) (now now' : Z),
       now ≤ now' →
       SimpleCache.get
         (SimpleCache.set (SimpleCache.constructor (Some ttl)) k v now) k now'
       = (JNull, SimpleCache.constructor (Some ttl))).
Proof.
  repeat split.
  - intros Hm calls. by apply run_no_quota.
  - intros Httl k v now now' Hle.
    rewrite (get_expired _ _ _ _
               (set_lookup (SimpleCache.constructor (Some ttl)) k v now))
      by (simpl; lia).
    f_equal. unfold SimpleCache.constructor, SimpleCache.set; simpl.
    f_equal. rewrite delete_insert_eq. apply delete_empty.
Qed.

Lemma C8_no_configuration_check_witness :
  RateLimiter.run (RateLimiter.constructor 0 1000)
    [(JStr "x", 0); (JStr "x", 5000)]
  = ([false; false], RateLimiter.constructor 0 1000)
  ∧ SimpleCache.get
      (SimpleCache.set (SimpleCache.constructor (Some (-1)))
         (JStr "k") (JNum 1) 10) (JStr "k") 10
    = (JNull, SimpleCache.constructor (Some (-1))).
Proof.
  destruct (C8_no_configuration_check (-1) 0 1000)
    as (_ & _ & Hquota & Hexpired).
  split.
  - apply (Hquota ltac:(lia) [(JStr "x", 0); (JStr "x", 5000)]).
  - apply Hexpired; lia.
Defined.

(** * Further properties of SimpleCache *)

Section SimpleCacheMore.

Implicit Types (c : SimpleCache.t) (key k v : jsval) (now t : Z).

(** The result of [get] depends on the entry of its key only. *)
Lemma get_result_lookup c1 c2 k now :
  SimpleCache.cache c1 !! k = SimpleCache.cache c2 !! k →
  (SimpleCache.get c1 k now).1 = (SimpleCache.get c2 k now).1.
Proof.
  intros Heq. unfold SimpleCache.get. rewrite Heq.
  destruct (SimpleCache.cache c2 !! k) as [it|]; [|done].
  by case_bool_decide.
Qed.

Lemma get_cache_other c key k now :
  k ≠ key →
  SimpleCache.cache (SimpleCache.get c key now).2 !! k
    = SimpleCache.cache c !! k.
Proof.
  intros Hne. unfold SimpleCache.get.
  destruct (SimpleCache.cache c !! key) as [it|]; [|done].
  case_bool_decide; [|done]. simpl. by apply lookup_delete_ne.
Qed.

Lemma get_cache_subseteq c key now :
  SimpleCache.cache (SimpleCache.get c key now).2 ⊆ SimpleCache.cache c.
Proof.
  unfold SimpleCache.get.
  destruct (SimpleCache.cache c !! key) as [it|]; [|done].
  case_bool_decide; [|done]. simpl. apply delete_subseteq.
Qed.

End SimpleCacheMore.

(** X1: after [clear()] the store is empty and the TTL is kept; a [get] of
    any key at any time then returns [null] and changes nothing, and a [set]
    after [clear()] behaves as on a cache that was just constructed with
    that TTL. *)
Theorem clear_forgets_everything (c : SimpleCache.t) (k v : jsval)
    (now : Z) :
  SimpleCache.get (SimpleCache.clear c) k now = (JNull, SimpleCache.clear c)
  ∧ SimpleCache.clear c = SimpleCache.constructor (Some (SimpleCache.ttl c))
  ∧ SimpleCache.clear (SimpleCache.set c k v now) = SimpleCache.clear c
  ∧ (SimpleCache.delete (SimpleCache.clear c) k).2 = SimpleCache.clear c.
Proof.
  split; [by apply get_absent|].
  split; [done|]. split; [done|].
  by apply delete_absent.
Qed.

(** X2: a second [set] of a key replaces the entry as a whole: the cache
    is the one a single [set] of the new value at the new time gives,
    whatever was stored before, so the new value is served until
    [ttl] after the second [set]. *)
Theorem set_overwrites (c : SimpleCache.t) (k v1 v2 : jsval)
    (t1 t2 now : Z) :
  SimpleCache.set (SimpleCache.set c k v1 t1) k v2 t2
    = SimpleCache.set c k v2 t2
  ∧ (now ≤ t2 + SimpleCache.ttl c →
     (SimpleCache.get (SimpleCache.set (SimpleCache.set c k v1 t1) k v2 t2)
        k now).1 = v2).
Proof.
  assert (SimpleCache.set (SimpleCache.set c k v1 t1) k v2 t2
          = SimpleCache.set c k v2 t2) as Heq.
  { unfold SimpleCache.set; simpl. f_equal. apply insert_insert_eq. }
  split; [exact Heq|]. intros Hle. rewrite Heq. by apply set_get.
Qed.

Lemma set_overwrites_witness :
  (SimpleCache.get
     (SimpleCache.set
        (SimpleCache.set (SimpleCache.constructor (Some 1000))
           (JStr "k") (JNum 1) 0)
        (JStr "k") (JNum 2) 900)
     (JStr "k") 1800).1 = JNum 2.
Proof.
  apply (proj2 (set_overwrites (SimpleCache.constructor (Some 1000))
                  (JStr "k") (JNum 1) (JNum 2) 0 900 1800)).
  simpl. lia.
Defined.

(** X3: the lifetime of an entry is exact: after [set(k, v)] at time [t]
    with a value other than [null], [get(k)] returns [v] at the times
    [now <= t + ttl] and at no other time. *)
Theorem set_get_lifetime (c : SimpleCache.t) (k v : jsval) (t now : Z) :
  v ≠ JNull →
  (SimpleCache.get (SimpleCache.set c k v t) k now).1 = v
  ↔ now ≤ t + SimpleCache.ttl c.
Proof.
  intros Hv. split.
  - intros Hget.
    destruct (decide (now ≤ t + SimpleCache.ttl c)) as [|Hgt]; [done|].
    rewrite (get_expired _ _ _ _ (set_lookup c k v t)) in Hget
      by (simpl; lia).
    simpl in Hget. congruence.
  - apply set_get.
Qed.

Lemma set_get_lifetime_witness :
  (SimpleCache.get
     (SimpleCache.set (SimpleCache.constructor (Some 500))
        (JStr "greeting") (JStr "hello") 0)
     (JStr "greeting") 600).1 = JStr "hello"
  ↔ 600 ≤ 0 + 500.
Proof.
  apply (set_get_lifetime (SimpleCache.constructor (Some 500))
           (JStr "greeting") (JStr "hello") 0 600).
  discriminate.
Defined.

(** X4: keys do not interfere: a [set], a [delete] or a [get] of one key,
    the [get] that evicts an expired entry included, leaves the entry of
    every other key as it is, and with it the result of a [get] of that
    other key at any time. *)
Theorem other_keys_untouched (c : SimpleCache.t) (key k v : jsval)
    (t now : Z) :
  k ≠ key →
  (SimpleCache.cache (SimpleCache.set c key v t) !! k
     = SimpleCache.cache c !! k
   ∧ SimpleCache.cache (SimpleCache.delete c key).2 !! k
     = SimpleCache.cache c !! k
   ∧ SimpleCache.cache (SimpleCache.get c key t).2 !! k
     = SimpleCache.cache c !! k)
  ∧ (SimpleCache.get (SimpleCache.set c key v t) k now).1
    = (SimpleCache.get c k now).1
  ∧ (SimpleCache.get (SimpleCache.delete c key).2 k now).1
    = (SimpleCache.get c k now).1
  ∧ (SimpleCache.get (SimpleCache.get c key t).2 k now).1
    = (SimpleCache.get c k now).1.
Proof.
  intros Hne.
  assert (SimpleCache.cache (SimpleCache.set c key v t) !! k
          = SimpleCache.cache c !! k) as Hset.
  { unfold SimpleCache.set; simpl. by apply lookup_insert_ne. }
  assert (SimpleCache.cache (SimpleCache.delete c key).2 !! k
          = SimpleCache.cache c !! k) as Hdel.
  { rewrite delete_cache. by apply lookup_delete_ne. }
  pose proof (get_cache_other c key k t Hne) as Hget.
  repeat split; try done; by apply get_result_lookup.
Qed.

Lemma other_keys_untouched_witness :
  let c := SimpleCache.set (SimpleCache.constructor (Some 10))
             (JStr "b") (JNum 2) 0 in
  (SimpleCache.get
     (SimpleCache.get (SimpleCache.set c (JStr "a") (JNum 1) 0)
        (JStr "a") 11).2 (JStr "b") 5).1
  = (SimpleCache.get (SimpleCache.set c (JStr "a") (JNum 1) 0)
       (JStr "b") 5).1.
Proof.
  intros c.
  destruct (other_keys_untouched (SimpleCache.set c (JStr "a") (JNum 1) 0)
              (JStr "a") (JStr "b") JNull 11 5) as (_ & _ & _ & Hget).
  - discriminate.
  - exact Hget.
Defined.

(** X5: a [get] only ever shrinks the store: every entry left after it was
    there before, unchanged, and the TTL is kept.  Reading is idempotent:
    a second [get] of the same key at the same time returns the same
    result and changes nothing more.  A key that reads as [null] keeps
    reading as [null] at every later time until it is [set] again. *)
Theorem get_only_evicts (c : SimpleCache.t) (k : jsval) (now now' : Z) :
  SimpleCache.cache (SimpleCache.get c k now).2 ⊆ SimpleCache.cache c
  ∧ SimpleCache.ttl (SimpleCache.get c k now).2 = SimpleCache.ttl c
  ∧ SimpleCache.get (SimpleCache.get c k now).2 k now
    = SimpleCache.get c k now
  ∧ (now ≤ now' →
     (SimpleCache.get c k now).1 = JNull →
     (SimpleCache.get (SimpleCache.get c k now).2 k now').1 = JNull).
Proof.
  split; [apply get_cache_subseteq|].
  unfold SimpleCache.get.
  destruct (SimpleCache.cache c !! k) as [it|] eqn:Hk.
  - case_bool_decide as Hexp; simpl.
    + rewrite lookup_delete_eq. done.
    + rewrite Hk. rewrite bool_decide_eq_false_2 by done.
      repeat split. intros Hle Hnull. case_bool_decide; done.
  - simpl. rewrite Hk. done.
Qed.

Lemma get_only_evicts_witness :
  let c := SimpleCache.set (SimpleCache.constructor (Some 10))
             (JStr "k") (JNum 1) 0 in
  (SimpleCache.get (SimpleCache.get c (JStr "k") 11).2 (JStr "k") 12).1
  = JNull.
Proof.
  intros c.
  destruct (get_only_evicts c (JStr "k") 11 12) as (_ & _ & _ & Hmiss).
  apply Hmiss; [lia | reflexivity].
Defined.

(** * Further properties of RateLimiter *)

Section RateLimiterMore.

Implicit Types (rl : RateLimiter.t) (id i : jsval) (now m w : Z)
  (calls : list (jsval * Z)).

Lemma run_config rl calls :
  RateLimiter.maxRequests (RateLimiter.run rl calls).2
    = RateLimiter.maxRequests rl
  ∧ RateLimiter.windowMs (RateLimiter.run rl calls).2
    = RateLimiter.windowMs rl.
Proof.
  revert rl. induction calls as [|[i now] calls IH]; intros rl; [done|].
  simpl. destruct (isAllowed_config rl i now) as [Hm Hw].
  destruct (RateLimiter.isAllowed rl i now) as [b rl1].
  specialize (IH rl1).
  destruct (RateLimiter.run rl1 calls) as [bs rl2]. simpl in *.
  split; [by rewrite (proj1 IH) | by rewrite (proj2 IH)].
Qed.

Lemma isAllowed_length rl i id now :
  Z.of_nat (length (RateLimiter.stored rl id))
    ≤ Z.max 0 (RateLimiter.maxRequests rl) →
  Z.of_nat (length (RateLimiter.stored (RateLimiter.isAllowed rl i now).2 id))
    ≤ Z.max 0 (RateLimiter.maxRequests rl).
Proof.
  intros Hlen. destruct (decide (i = id)) as [->|Hne].
  - destruct (isAllowed_cases rl id now) as [(Hlt & _ & Hst)|[_ Hrej]].
    + rewrite Hst, length_app. simpl. lia.
    + by rewrite Hrej.
  - by rewrite isAllowed_other.
Qed.

Lemma run_length rl calls id :
  Z.of_nat (length (RateLimiter.stored rl id))
    ≤ Z.max 0 (RateLimiter.maxRequests rl) →
  Z.of_nat (length (RateLimiter.stored (RateLimiter.run rl calls).2 id))
    ≤ Z.max 0 (RateLimiter.maxRequests rl).
Proof.
  revert rl. induction calls as [|[i now] calls IH]; intros rl Hlen; [done|].
  simpl. pose proof (isAllowed_length rl i id now Hlen) as Hlen1.
  destruct (isAllowed_config rl i now) as [Hm _].
  destruct (RateLimiter.isAllowed rl i now) as [b rl1].
  specialize (IH rl1).
  destruct (RateLimiter.run rl1 calls) as [bs rl2]. simpl in *.
  rewrite <- Hm. apply IH. by rewrite Hm.
Qed.

End RateLimiterMore.

(** X6: the memory held per identifier is bounded: whatever calls a fresh
    limiter receives, at whatever times, the list stored for an
    identifier never holds more than [maxRequests] timestamps (none when
    [maxRequests] is not positive). *)
Theorem stored_never_exceeds_limit (m w : Z) (calls : list (jsval * Z))
    (id : jsval) :
  Z.of_nat
    (length
       (RateLimiter.stored
          (RateLimiter.run (RateLimiter.constructor m w) calls).2 id))
  ≤ Z.max 0 m.
Proof.
  apply (run_length (RateLimiter.constructor m w) calls id).
  unfold RateLimiter.stored; simpl. rewrite lookup_empty. simpl. lia.
Qed.

Section RateLimiterHistory.

Variables (w : Z) (id : jsval).

(** Along a run at non-decreasing times, the recent part of the stored
    list stays the recent part of the history of admitted times. *)
Lemma run_tracks (calls : list (jsval * Z)) :
  ∀ (rl : RateLimiter.t) (H : list Z) (t0 now : Z),
    RateLimiter.windowMs rl = w →
    RateLimiter.tracks w id rl H t0 →
    Forall (λ c, t0 ≤ c.2) calls →
    StronglySorted Z.le (calls.*2) →
    t0 ≤ now →
    Forall (λ c, c.2 ≤ now) calls →
    RateLimiter.recent w now
      (RateLimiter.stored (RateLimiter.run rl calls).2 id)
    = RateLimiter.recent w now
        (H ++ RateLimiter.admitted id calls (RateLimiter.run rl calls).1).
Proof.
  induction calls as [|[i t] calls IH];
    intros rl H t0 now Hw HT Hge Hs Hnow Hle.
  - simpl. rewrite app_nil_r. by apply HT.
  - apply Forall_cons in Hge as [Ht Hge]. simpl in Ht.
    apply Forall_cons in Hle as [Htn Hle]. simpl in Htn.
    rewrite fmap_cons in Hs. apply StronglySorted_inv in Hs as [Hs Hhd].
    assert (Forall (λ c : jsval * Z, t ≤ c.2) calls) as Hge'.
    { rewrite Forall_fmap in Hhd. exact Hhd. }
    destruct (isAllowed_config rl i t) as [_ Hw'].
    simpl.
    destruct (RateLimiter.isAllowed rl i t) as [b rl1] eqn:Hcall.
    destruct (RateLimiter.run rl1 calls) as [bs rl2] eqn:Hrun.
    simpl in *.
    assert (bs = (RateLimiter.run rl1 calls).1) as -> by by rewrite Hrun.
    assert (rl2 = (RateLimiter.run rl1 calls).2) as -> by by rewrite Hrun.
    destruct (decide (i = id)) as [->|Hne].
    + rewrite bool_decide_eq_true_2 by done. simpl.
      destruct (isAllowed_cases rl id t) as [(Hlt & Hb & Hst)|[Hlim Hrej]];
        rewrite Hcall in *; simpl in *.
      * subst b.
        replace (H ++ t :: RateLimiter.admitted id calls
                             (RateLimiter.run rl1 calls).1)
          with ((H ++ [t]) ++ RateLimiter.admitted id calls
                                (RateLimiter.run rl1 calls).1)
          by by rewrite <- app_assoc.
        apply (IH rl1 (H ++ [t]) t now); try congruence; try done.
        pose proof (tracks_admit w id rl H t0 t Hw HT Ht) as HT'.
        rewrite Hcall in HT'. simpl in HT'. apply HT'.
        rewrite Hst. by rewrite Hw.
      * injection Hrej as -> ->.
        apply (IH rl H t now); try done. by apply (tracks_later _ _ _ _ t0).
    + rewrite bool_decide_eq_false_2 by done. simpl.
      apply (IH rl1 H t now); try congruence; try done.
      intros now' Hle'. pose proof (isAllowed_other rl i id t Hne) as Ho.
      rewrite Hcall in Ho. simpl in Ho. rewrite Ho. apply HT. lia.
Qed.

End RateLimiterHistory.

(** The answer of a call, read off the history of admitted times. *)
Lemma decision_counts_admitted (m w : Z)
    (earlier : list (jsval * Z)) (id : jsval) (now : Z) :
  Sorted Z.le ((earlier ++ [(id, now)]).*2) →
  let before := RateLimiter.run (RateLimiter.constructor m w) earlier in
  (RateLimiter.isAllowed before.2 id now).1
  = bool_decide
      (Z.of_nat
         (length
            (filter (λ t, now - w < t)
               (RateLimiter.admitted id earlier before.1))) < m).
Proof.
  intros Hs before.
  apply Sorted_StronglySorted in Hs; [|apply _].
  rewrite fmap_app in Hs. simpl in Hs.
  assert (Forall (λ c : jsval * Z, c.2 ≤ now) earlier) as Hle.
  { apply Forall_forall. intros c Hc.
    apply (StronglySorted_app_1_elem_of _ _ _ c.2 now Hs);
      [by apply list_elem_of_fmap_2 | by apply list_elem_of_singleton]. }
  apply StronglySorted_app_1_l in Hs.
  destruct (run_config (RateLimiter.constructor m w) earlier) as [Hm Hw].
  fold before in Hm, Hw. simpl in Hm, Hw.
  assert (RateLimiter.recent w now (RateLimiter.stored before.2 id)
          = RateLimiter.recent w now
              (RateLimiter.admitted id earlier before.1)) as Hrec.
  { destruct earlier as [|[i t0] earlier]; [done|].
    apply (run_tracks w id ((i, t0) :: earlier)
             (RateLimiter.constructor m w) [] t0 now); try done.
    - rewrite fmap_cons in Hs. apply StronglySorted_inv in Hs as [_ Hhd].
      constructor; [simpl; lia|]. by rewrite Forall_fmap in Hhd.
    - by apply Forall_cons in Hle as [? _]. }
  assert (filter (λ t, now - w < t) (RateLimiter.admitted id earlier before.1)
          = RateLimiter.recent w now
              (RateLimiter.admitted id earlier before.1)) as ->.
  { apply list_filter_iff. intros t. lia. }
  rewrite <- Hrec.
  destruct (isAllowed_cases before.2 id now) as [(Hlt & Hb & _)|[Hlim Hrej]];
    rewrite Hw, Hm in *.
  - rewrite Hb. by rewrite bool_decide_eq_true_2.
  - rewrite Hrej. simpl. rewrite bool_decide_eq_false_2; [done | lia].
Qed.

(** X7: the decision of [isAllowed] is exact.  On a fresh limiter whose
    calls come at non-decreasing times, a call of an identifier at time
    [now] is admitted if and only if fewer than [maxRequests] of the
    earlier admitted calls of that identifier are newer than
    [now - windowMs]; rejected calls and calls of other identifiers do
    not count. *)
Theorem isAllowed_counts_admitted_calls (m w : Z)
    (earlier : list (jsval * Z)) (id : jsval) (now : Z) :
  Sorted Z.le ((earlier ++ [(id, now)]).*2) →
  let before := RateLimiter.run (RateLimiter.constructor m w) earlier in
  (RateLimiter.isAllowed before.2 id now).1
  = bool_decide
      (Z.of_nat
         (length
            (filter (λ t, now - w < t)
               (RateLimiter.admitted id earlier before.1))) < m).
Proof. apply decision_counts_admitted. Qed.

Lemma isAllowed_counts_admitted_calls_witness :
  let earlier := [(JStr "x", 0); (JStr "y", 1); (JStr "x", 999)] in
  let before := RateLimiter.run (RateLimiter.constructor 2 1000) earlier in
  (RateLimiter.isAllowed before.2 (JStr "x") 1000).1
  = bool_decide
      (Z.of_nat
         (length
            (filter (λ t, 1000 - 1000 < t)
               (RateLimiter.admitted (JStr "x") earlier before.1))) < 2).
Proof.
  apply (isAllowed_counts_admitted_calls 2 1000
           [(JStr "x", 0); (JStr "y", 1); (JStr "x", 999)] (JStr "x") 1000).
  repeat (constructor; try (simpl; lia)).
Defined.

Section RateLimiterIdentifiers.

Implicit Types (rl : RateLimiter.t) (id i : jsval) (now : Z)
  (calls : list (jsval * Z)).

(** Two limiters with the same configuration and the same list on record
    for [id] answer a call of [id] alike. *)
Lemma isAllowed_agree rl rl' id now :
  RateLimiter.maxRequests rl = RateLimiter.maxRequests rl' →
  RateLimiter.windowMs rl = RateLimiter.windowMs rl' →
  RateLimiter.stored rl id = RateLimiter.stored rl' id →
  (RateLimiter.isAllowed rl id now).1 = (RateLimiter.isAllowed rl' id now).1
  ∧ RateLimiter.stored (RateLimiter.isAllowed rl id now).2 id
    = RateLimiter.stored (RateLimiter.isAllowed rl' id now).2 id.
Proof.
  intros Hm Hw Hst.
  destruct (isAllowed_cases rl id now) as [(Hlt & Hb & Hst1)|[Hlim Hrej]];
    destruct (isAllowed_cases rl' id now) as [(Hlt' & Hb' & Hst1')|[Hlim' Hrej']];
    rewrite Hm, Hw, Hst in *; try lia.
  - by rewrite Hb, Hb', Hst1, Hst1'.
  - by rewrite Hrej, Hrej'.
Qed.

Lemma run_agree calls :
  ∀ rl rl' id,
    RateLimiter.maxRequests rl = RateLimiter.maxRequests rl' →
    RateLimiter.windowMs rl = RateLimiter.windowMs rl' →
    RateLimiter.stored rl id = RateLimiter.stored rl' id →
    answers_for id calls (RateLimiter.run rl calls).1
      = (RateLimiter.run rl' (calls_of id calls)).1
    ∧ RateLimiter.stored (RateLimiter.run rl calls).2 id
      = RateLimiter.stored (RateLimiter.run rl' (calls_of id calls)).2 id.
Proof.
  induction calls as [|[i now] calls IH]; intros rl rl' id Hm Hw Hst; [done|].
  unfold calls_of in *. simpl.
  destruct (isAllowed_config rl i now) as [Hm1 Hw1].
  destruct (decide (i = id)) as [->|Hne].
  - rewrite filter_cons_True by done. simpl.
    rewrite bool_decide_eq_true_2 by done.
    destruct (isAllowed_config rl' id now) as [Hm1' Hw1'].
    destruct (isAllowed_agree rl rl' id now Hm Hw Hst) as [Hb Hst1].
    destruct (RateLimiter.isAllowed rl id now) as [b rl1].
    destruct (RateLimiter.isAllowed rl' id now) as [b' rl1'].
    simpl in *. subst b'.
    specialize (IH rl1 rl1' id).
    destruct (RateLimiter.run rl1 calls) as [bs rl2].
    destruct (RateLimiter.run rl1' _) as [bs' rl2'].
    simpl in *. destruct IH as [IH1 IH2]; [congruence..|].
    split; [by f_equal | done].
  - rewrite filter_cons_False by done.
    rewrite bool_decide_eq_false_2 by done.
    pose proof (isAllowed_other rl i id now Hne) as Ho.
    destruct (RateLimiter.isAllowed rl i now) as [b rl1]. simpl in *.
    specialize (IH rl1 rl' id).
    destruct (RateLimiter.run rl1 calls) as [bs rl2].
    simpl in *. apply IH; congruence.
Qed.

Lemma isAllowed_dom rl id now :
  dom (RateLimiter.requests (RateLimiter.isAllowed rl id now).2)
  = if (RateLimiter.isAllowed rl id now).1
    then {[id]} ∪ dom (RateLimiter.requests rl)
    else dom (RateLimiter.requests rl).
Proof.
  unfold RateLimiter.isAllowed. case_bool_decide; [done|]. simpl.
  apply dom_insert_L.
Qed.

End RateLimiterIdentifiers.

(** X8: identifiers do not interfere: in any run, from any state, the
    answers given to the calls of one identifier, and the list left on
    record for it, are those of the run in which the calls of all other
    identifiers are left out. *)
Theorem identifiers_do_not_interfere (rl : RateLimiter.t)
    (calls : list (jsval * Z)) (id : jsval) :
  answers_for id calls (RateLimiter.run rl calls).1
    = (RateLimiter.run rl (calls_of id calls)).1
  ∧ RateLimiter.stored (RateLimiter.run rl calls).2 id
    = RateLimiter.stored (RateLimiter.run rl (calls_of id calls)).2 id.
Proof. by apply run_agree. Qed.

(** X9: the limiter never forgets an identifier: a run only adds keys to
    [requests], and on a fresh limiter the keys on record after a run are
    exactly the identifiers that were admitted at least once. *)
Theorem identifiers_are_never_removed (rl : RateLimiter.t) (m w : Z)
    (calls : list (jsval * Z)) (id : jsval) :
  dom (RateLimiter.requests rl)
    ⊆ dom (RateLimiter.requests (RateLimiter.run rl calls).2)
  ∧ (id ∈ dom (RateLimiter.requests
                 (RateLimiter.run (RateLimiter.constructor m w) calls).2)
     ↔ RateLimiter.admitted id calls
         (RateLimiter.run (RateLimiter.constructor m w) calls).1 ≠ []).
Proof.
  assert (∀ calls rl,
            id ∈ dom (RateLimiter.requests (RateLimiter.run rl calls).2)
            ↔ id ∈ dom (RateLimiter.requests rl)
              ∨ RateLimiter.admitted id calls (RateLimiter.run rl calls).1
                ≠ []) as Hiff.
  { clear. induction calls as [|[i now] calls IH]; intros rl.
    - simpl. split; [by left | by intros [?|?]].
    - simpl. pose proof (isAllowed_dom rl i now) as Hd.
      destruct (RateLimiter.isAllowed rl i now) as [b rl1].
      specialize (IH rl1).
      destruct (RateLimiter.run rl1 calls) as [bs rl2]. simpl in *.
      rewrite IH, Hd. destruct b; simpl.
      + rewrite elem_of_union, elem_of_singleton.
        case_bool_decide as Hi; simpl.
        * subst i. split; [by right | by left; left].
        * split; [intros [[?|?]|?]; [congruence | by left | by right]
                 | intros [?|?]; [by left; right | by right]].
      + rewrite andb_false_r. done. }
  split.
  - clear Hiff. revert rl.
    induction calls as [|[i now] calls IH]; intros rl; [done|].
    simpl. pose proof (isAllowed_dom rl i now) as Hd.
    destruct (RateLimiter.isAllowed rl i now) as [b rl1].
    specialize (IH rl1).
    destruct (RateLimiter.run rl1 calls) as [bs rl2]. simpl in *.
    etrans; [|exact IH]. rewrite Hd.
    destruct b; [apply union_subseteq_r | done].
  - rewrite Hiff. simpl. rewrite dom_empty_L, elem_of_empty.
    split; [by intros [[]|?] | by right].
Qed.

(** * throttle *)

Section ThrottleFacts.

Variable func : list jsval → jsval.

Implicit Types (th : Throttle.t) (calls : list (list jsval * Z))
  (now a : Z).

Lemma throttle_call_delay th args now :
  Throttle.delay (Throttle.call func th args now).2 = Throttle.delay th.
Proof. unfold Throttle.call. by case_bool_decide. Qed.

(** Every time at which [func] runs is at least [delay] after
    [lastCall] and after every earlier run. *)
Lemma throttle_run_spaced calls :
  ∀ th,
    Forall (λ c, Throttle.lastCall th ≤ c.2) calls →
    StronglySorted Z.le (calls.*2) →
    StronglySorted (λ x y, Throttle.delay th ≤ y - x)
      (Throttle.lastCall th
         :: Throttle.executed calls (Throttle.run func th calls).1).
Proof.
  induction calls as [|[args now] calls IH]; intros th Hge Hs.
  - simpl. repeat constructor.
  - apply Forall_cons in Hge as [Hnow Hge]. simpl in Hnow.
    rewrite fmap_cons in Hs. apply StronglySorted_inv in Hs as [Hs Hhd].
    assert (Forall (λ c : list jsval * Z, now ≤ c.2) calls) as Hge'.
    { rewrite Forall_fmap in Hhd. exact Hhd. }
    simpl. unfold Throttle.call. case_bool_decide as Hgo.
    + specialize (IH {| Throttle.delay := Throttle.delay th;
                        Throttle.lastCall := now |} Hge' Hs).
      destruct (Throttle.run func _ calls) as [rs th2]. simpl in *.
      constructor; [exact IH|].
      apply StronglySorted_inv in IH as [_ Hall].
      constructor; [lia|].
      eapply Forall_impl; [exact Hall|]. simpl. intros t Ht. lia.
    + specialize (IH th Hge Hs).
      destruct (Throttle.run func th calls) as [rs th2]. exact IH.
Qed.

Lemma spaced_window (d a : Z) (ts : list Z) :
  0 < d →
  StronglySorted (λ x y, d ≤ y - x) ts →
  RateLimiter.count_from a d ts ≤ 1.
Proof.
  intros Hd Hs. unfold RateLimiter.count_from.
  induction Hs as [|t ts Hs IH Hall]; [simpl; lia|].
  destruct (decide (a ≤ t < a + d)) as [Hin|Hout].
  - rewrite filter_cons_True by done. simpl.
    assert (filter (λ t0, a ≤ t0 < a + d) ts = []) as ->; [|simpl; lia].
    clear IH Hs. induction Hall as [|x ts Hx _ IHts]; [done|].
    rewrite filter_cons_False by lia. exact IHts.
  - by rewrite filter_cons_False.
Qed.

Lemma throttle_run_lastCall calls :
  ∀ th (p : Z),
    Throttle.lastCall th ≤ p →
    Forall (λ c, c.2 ≤ p) calls →
    Throttle.lastCall (Throttle.run func th calls).2 ≤ p
    ∧ Throttle.delay (Throttle.run func th calls).2 = Throttle.delay th.
Proof.
  induction calls as [|[args now] calls IH]; intros th p Hl Hle; [done|].
  apply Forall_cons in Hle as [Hnow Hle]. simpl in Hnow.
  simpl. unfold Throttle.call. case_bool_decide.
  - specialize (IH {| Throttle.delay := Throttle.delay th;
                      Throttle.lastCall := now |} p Hnow Hle).
    by destruct (Throttle.run func _ calls).
  - specialize (IH th p Hl Hle). by destruct (Throttle.run func th calls).
Qed.

End ThrottleFacts.

(** X10: [throttle] spaces the runs of [func]: over calls at non-decreasing
    times from [0] on, any two runs of [func] are at least [delay]
    apart and the first is not before time [delay]; hence, for a positive
    [delay], [func] runs at most once in any interval [a, a + delay). *)
Theorem throttle_runs_are_spaced (func : list jsval → jsval) (delay : Z)
    (calls : list (list jsval * Z)) (a : Z) :
  Forall (λ c, 0 ≤ c.2) calls →
  Sorted Z.le (calls.*2) →
  let times := Throttle.executed calls
                 (Throttle.run func (Throttle.throttle delay) calls).1 in
  StronglySorted (λ x y, delay ≤ y - x) times
  ∧ Forall (λ t, delay ≤ t) times
  ∧ (0 < delay → RateLimiter.count_from a delay times ≤ 1).
Proof.
  intros Hpos Hs times.
  apply Sorted_StronglySorted in Hs; [|apply _].
  pose proof (throttle_run_spaced func calls (Throttle.throttle delay)
                Hpos Hs) as Hsp.
  fold times in Hsp. simpl in Hsp.
  apply StronglySorted_inv in Hsp as [Hsp Hfirst].
  split; [exact Hsp | split].
  - eapply Forall_impl; [exact Hfirst|]. simpl. intros t Ht. lia.
  - intros Hd. by apply spaced_window.
Qed.

Lemma throttle_runs_are_spaced_witness :
  let calls := [([JNum 1], 100); ([JNum 2], 150); ([JNum 3], 200)] in
  let times := Throttle.executed calls
                 (Throttle.run (λ args, arg 0 args) (Throttle.throttle 100)
                    calls).1 in
  StronglySorted (λ x y, 100 ≤ y - x) times
  ∧ Forall (λ t, 100 ≤ t) times
  ∧ (0 < 100 → RateLimiter.count_from 100 100 times ≤ 1).
Proof.
  apply (throttle_runs_are_spaced (λ args, arg 0 args) 100
           [([JNum 1], 100); ([JNum 2], 150); ([JNum 3], 200)] 100).
  - repeat (constructor; try (simpl; lia)).
  - repeat (constructor; try (simpl; lia)).
Defined.

(** X11: [throttle] never drops a call that follows a quiet period: if the
    call comes at least [delay] after time [p], and no earlier call was
    later than [p >= 0], then [func] is applied to the arguments of the
    call and its result is returned. *)
Theorem throttle_runs_after_quiet_period (func : list jsval → jsval)
    (delay : Z) (earlier : list (list jsval * Z)) (args : list jsval)
    (p now : Z) :
  0 ≤ p →
  Forall (λ c, c.2 ≤ p) earlier →
  delay ≤ now - p →
  let th := (Throttle.run func (Throttle.throttle delay) earlier).2 in
  (Throttle.call func th args now).1 = Some (func args)
  ∧ Throttle.lastCall (Throttle.call func th args now).2 = now.
Proof.
  intros Hp Hle Hquiet th.
  destruct (throttle_run_lastCall func earlier (Throttle.throttle delay) p
              Hp Hle) as [Hlast Hdelay].
  fold th in Hlast, Hdelay. simpl in Hdelay.
  unfold Throttle.call. rewrite bool_decide_eq_true_2; [done | lia].
Qed.

Lemma throttle_runs_after_quiet_period_witness :
  let th := (Throttle.run (λ args, arg 0 args) (Throttle.throttle 100)
               [([JNum 1], 100); ([JNum 2], 150)]).2 in
  (Throttle.call (λ args, arg 0 args) th [JNum 3] 250).1 = Some (JNum 3)
  ∧ Throttle.lastCall (Throttle.call (λ args, arg 0 args) th [JNum 3] 250).2
    = 250.
Proof.
  apply (throttle_runs_after_quiet_period (λ args, arg 0 args) 100
           [([JNum 1], 100); ([JNum 2], 150)] [JNum 3] 150 250).
  - lia.
  - repeat (constructor; try (simpl; lia)).
  - lia.
Defined.

(** * promiseAll *)

Section ArrayFacts.

Implicit Types (a : PromiseAll.array) (i j : nat) (v : jsval).

Lemma array_set_length a i v :
  length (PromiseAll.array_set a i v) = (length a `max` S i)%nat.
Proof.
  unfold PromiseAll.array_set. case_decide.
  - rewrite length_insert. lia.
  - rewrite !length_app, length_replicate. simpl. lia.
Qed.

Lemma array_set_lookup_eq a i v :
  PromiseAll.array_set a i v !! i = Some (Some v).
Proof.
  unfold PromiseAll.array_set. case_decide.
  - by apply list_lookup_insert_eq.
  - rewrite lookup_app_r by lia.
    rewrite lookup_app_r by (rewrite length_replicate; lia).
    rewrite length_replicate.
    by replace (i - length a - (i - length a))%nat with 0%nat by lia.
Qed.

Lemma array_set_lookup_keep a i j v x :
  j ≠ i → a !! j = Some x → PromiseAll.array_set a i v !! j = Some x.
Proof.
  intros Hne Hj. unfold PromiseAll.array_set. case_decide.
  - by rewrite list_lookup_insert_ne.
  - by apply lookup_app_l_Some.
Qed.

Lemma array_set_lookup_hole a i j v :
  j ≠ i →
  a !! j = None ∨ a !! j = Some None →
  PromiseAll.array_set a i v !! j = None
  ∨ PromiseAll.array_set a i v !! j = Some None.
Proof.
  intros Hne [Hj|Hj]; [|right; by apply array_set_lookup_keep].
  apply lookup_ge_None in Hj.
  unfold PromiseAll.array_set. case_decide.
  - left. rewrite list_lookup_insert_ne by done. by apply lookup_ge_None.
  - rewrite lookup_app_r by done.
    destruct (decide (j - length a < i - length a)%nat) as [Hlt|Hge].
    + right. rewrite lookup_app_l by (rewrite length_replicate; lia).
      by apply lookup_replicate_2.
    + left. apply lookup_ge_None.
      rewrite length_app, length_replicate. simpl. lia.
Qed.

End ArrayFacts.

Section PromiseAllFacts.

Implicit Types (promises : list PromiseAll.input) (order : list nat)
  (st : PromiseAll.t) (i j : nat).

Lemma run_snoc promises order i :
  PromiseAll.run promises (order ++ [i])
  = PromiseAll.react promises (PromiseAll.run promises order) i.
Proof. unfold PromiseAll.run. by rewrite fold_left_app. Qed.

Lemma run_app promises order more :
  PromiseAll.run promises (order ++ more)
  = fold_left (PromiseAll.react promises) more
      (PromiseAll.run promises order).
Proof. unfold PromiseAll.run. by rewrite fold_left_app. Qed.

Lemma distinct_indices_length (n : nat) order :
  NoDup order → (∀ i, i ∈ order → (i < n)%nat) → (length order ≤ n)%nat.
Proof.
  intros Hnd Hlt.
  assert (order ⊆+ seq 0 n) as Hsub.
  { apply NoDup_submseteq; [done|].
    intros i Hi. apply elem_of_seq. specialize (Hlt i Hi). lia. }
  apply submseteq_length in Hsub. by rewrite length_seq in Hsub.
Qed.

(** Once settled, the returned promise keeps its state. *)
Lemma react_settled promises st i :
  PromiseAll.returned st ≠ PromiseAll.Pending →
  PromiseAll.returned (PromiseAll.react promises st i)
  = PromiseAll.returned st.
Proof.
  intros Hst. unfold PromiseAll.react.
  destruct (promises !! i) as [[v|r]|]; simpl; [|by destruct (PromiseAll.returned st)|done].
  case_decide; [|done]. by destruct (PromiseAll.returned st).
Qed.

Lemma reactions_settled promises more :
  ∀ st,
    PromiseAll.returned st ≠ PromiseAll.Pending →
    PromiseAll.returned (fold_left (PromiseAll.react promises) more st)
    = PromiseAll.returned st.
Proof.
  induction more as [|i more IH]; intros st Hst; [done|]. simpl.
  rewrite IH; rewrite react_settled; done.
Qed.

(** The state while distinct inputs fulfil, none having rejected. *)
Lemma run_fulfilled promises order :
  promises ≠ [] →
  NoDup order →
  (∀ i, i ∈ order → ∃ v, promises !! i = Some (PromiseAll.Fulfils v)) →
  let st := PromiseAll.run promises order in
  PromiseAll.len st = length promises
  ∧ PromiseAll.completed st = length order
  ∧ (∀ i v, i ∈ order → promises !! i = Some (PromiseAll.Fulfils v) →
            PromiseAll.results st !! i = Some (Some v))
  ∧ (∀ i, i ∉ order →
          PromiseAll.results st !! i = None
          ∨ PromiseAll.results st !! i = Some None)
  ∧ (length (PromiseAll.results st) ≤ length promises)%nat
  ∧ ((length order < length promises)%nat →
     PromiseAll.returned st = PromiseAll.Pending)
  ∧ (length order = length promises →
     PromiseAll.returned st = PromiseAll.Resolved (PromiseAll.results st)).
Proof.
  intros Hne. induction order as [|i order IH] using rev_ind;
    intros Hnd Hful; cbv zeta.
  - unfold PromiseAll.run, PromiseAll.promiseAll. simpl.
    assert (length promises ≠ 0%nat) as Hlen by by destruct promises.
    rewrite decide_False by done. simpl.
    repeat split; try done; try lia.
    + intros i v Hi. by apply elem_of_nil in Hi.
    + intros i _. by left.
  - apply NoDup_app in Hnd as (Hnd & Hfresh & _).
    assert (i ∉ order) as Hi.
    { intros Hin. apply (Hfresh i Hin). by apply list_elem_of_singleton. }
    destruct IH as (Hlen & Hcompl & Hfilled & Hholes & Hsize & Hpend & _);
      [done | by intros j Hj; apply Hful, elem_of_app; left |].
    destruct (Hful i) as [v Hv];
      [by apply elem_of_app; right; apply list_elem_of_singleton |].
    assert (i < length promises)%nat as Hilt by by eapply lookup_lt_Some.
    assert (length (order ++ [i]) ≤ length promises)%nat as Hbound.
    { apply distinct_indices_length.
      - apply NoDup_app. split; [done|]. split; [done|]. apply NoDup_singleton.
      - intros j Hj. destruct (Hful j Hj) as [vj Hvj].
        by eapply lookup_lt_Some. }
    rewrite length_app in Hbound. simpl in Hbound.
    cbv zeta in *.
    rewrite run_snoc. unfold PromiseAll.react. rewrite Hv.
    unfold PromiseAll.on_fulfilled. simpl.
    rewrite Hlen, Hcompl, Hpend by lia. simpl.
    rewrite length_app. simpl.
    split; [done|]. split; [lia|]. split; [|split; [|split; [|split]]].
    + intros j vj Hj Hvj. apply elem_of_app in Hj as [Hj|Hj].
      * apply array_set_lookup_keep; [congruence | by apply Hfilled].
      * apply list_elem_of_singleton in Hj as ->.
        rewrite Hv in Hvj. injection Hvj as ->. apply array_set_lookup_eq.
    + intros j Hj. apply array_set_lookup_hole.
      * intros ->. apply Hj, elem_of_app. right.
        by apply list_elem_of_singleton.
      * apply Hholes. intros Hin. apply Hj, elem_of_app. by left.
    + rewrite array_set_length. lia.
    + intros Hlt. rewrite decide_False by lia. done.
    + intros Heq. rewrite decide_True by lia. done.
Qed.

End PromiseAllFacts.

(** X12: when every input fulfils, [promiseAll] resolves with the values
    in the order of the inputs, whatever the order in which the inputs
    settle; with no input it resolves with the empty array at once. *)
Theorem promiseAll_resolves_in_input_order (values : list jsval)
    (order : list nat) :
  order ≡ₚ seq 0 (length values) →
  PromiseAll.returned
    (PromiseAll.run (PromiseAll.Fulfils <$> values) order)
  = PromiseAll.Resolved (Some <$> values).
Proof.
  intros Hperm.
  destruct (decide (values = [])) as [->|Hne].
  { simpl in Hperm. apply Permutation_nil_r in Hperm as ->. done. }
  assert (NoDup order) as Hnd by (rewrite Hperm; apply NoDup_seq).
  assert (∀ i, i ∈ order ↔ (i < length values)%nat) as Hin.
  { intros i. rewrite Hperm, elem_of_seq. lia. }
  assert (length order = length values) as Hlen.
  { rewrite Hperm. apply length_seq. }
  destruct (run_fulfilled (PromiseAll.Fulfils <$> values) order)
    as (_ & _ & Hfilled & _ & Hsize & _ & Hres).
  - by destruct values.
  - done.
  - intros i Hi. apply Hin in Hi.
    destruct (lookup_lt_is_Some_2 values i Hi) as [v Hv].
    exists v. by rewrite list_lookup_fmap, Hv.
  - rewrite length_fmap in *. rewrite (Hres Hlen). f_equal.
    apply list_eq. intros i. rewrite list_lookup_fmap.
    destruct (values !! i) as [v|] eqn:Hv; simpl.
    + apply Hfilled.
      * apply Hin. by eapply lookup_lt_Some.
      * by rewrite list_lookup_fmap, Hv.
    + apply lookup_ge_None. apply lookup_ge_None in Hv. lia.
Qed.

Lemma promiseAll_resolves_in_input_order_witness :
  PromiseAll.returned
    (PromiseAll.run (PromiseAll.Fulfils <$> [JNum 10; JNum 20; JNum 30])
       [2; 0; 1]%nat)
  = PromiseAll.Resolved (Some <$> [JNum 10; JNum 20; JNum 30]).
Proof.
  apply (promiseAll_resolves_in_input_order [JNum 10; JNum 20; JNum 30]
           [2; 0; 1]%nat).
  simpl. symmetry.
  etrans; [apply perm_skip, perm_swap|]. apply perm_swap.
Defined.

(** X13: [promiseAll] does not settle early: as long as the inputs that
    have settled all fulfilled and at least one input has not settled,
    the returned promise is pending. *)
Theorem promiseAll_waits_for_every_input
    (promises : list PromiseAll.input) (order : list nat) :
  NoDup order →
  (∀ i, i ∈ order → ∃ v, promises !! i = Some (PromiseAll.Fulfils v)) →
  (length order < length promises)%nat →
  PromiseAll.returned (PromiseAll.run promises order) = PromiseAll.Pending.
Proof.
  intros Hnd Hful Hlt.
  destruct (run_fulfilled promises order) as (_ & _ & _ & _ & _ & Hpend & _);
    try done.
  - intros ->. simpl in Hlt. lia.
  - by apply Hpend.
Qed.

Lemma promiseAll_waits_for_every_input_witness :
  PromiseAll.returned
    (PromiseAll.run
       [PromiseAll.Fulfils (JNum 1); PromiseAll.Rejects (JStr "late");
        PromiseAll.Fulfils (JNum 3)] [2; 0]%nat)
  = PromiseAll.Pending.
Proof.
  apply promiseAll_waits_for_every_input.
  - apply (bool_decide_unpack _). vm_compute. exact I.
  - intros i Hi.
    apply elem_of_cons in Hi as [->|Hi]; [by eexists|].
    apply list_elem_of_singleton in Hi as ->. by eexists.
  - simpl. lia.
Defined.

(** X14: [promiseAll] fails fast and settles once: when an input rejects
    after inputs that all fulfilled, the returned promise is rejected with
    the reason of that input, and it stays so whatever settles later,
    fulfilments and further rejections alike. *)
Theorem promiseAll_rejects_with_first_rejection
    (promises : list PromiseAll.input) (before later : list nat) (i : nat)
    (reason : jsval) :
  NoDup (before ++ [i]) →
  (∀ j, j ∈ before → ∃ v, promises !! j = Some (PromiseAll.Fulfils v)) →
  promises !! i = Some (PromiseAll.Rejects reason) →
  PromiseAll.returned (PromiseAll.run promises (before ++ i :: later))
  = PromiseAll.Rejected reason.
Proof.
  intros Hnd Hful Hi.
  assert (i < length promises)%nat as Hilt by by eapply lookup_lt_Some.
  assert (length (before ++ [i]) ≤ length promises)%nat as Hbound.
  { apply distinct_indices_length; [done|].
    intros j Hj. apply elem_of_app in Hj as [Hj|Hj].
    - destruct (Hful j Hj) as [v Hv]. by eapply lookup_lt_Some.
    - by apply list_elem_of_singleton in Hj as ->. }
  rewrite length_app in Hbound. simpl in Hbound.
  apply NoDup_app in Hnd as (Hnd & _ & _).
  destruct (run_fulfilled promises before) as (_ & _ & _ & _ & _ & Hpend & _);
    try done.
  { intros ->. simpl in Hilt. lia. }
  rewrite run_app. simpl.
  assert (PromiseAll.returned
            (PromiseAll.react promises (PromiseAll.run promises before) i)
          = PromiseAll.Rejected reason) as Hrej.
  { unfold PromiseAll.react. rewrite Hi. simpl. rewrite Hpend by lia. done. }
  rewrite reactions_settled; rewrite Hrej; done.
Qed.

Lemma promiseAll_rejects_with_first_rejection_witness :
  PromiseAll.returned
    (PromiseAll.run
       [PromiseAll.Fulfils (JNum 1); PromiseAll.Rejects (JStr "Error");
        PromiseAll.Fulfils (JNum 3)] ([2]%nat ++ 1%nat :: [0]%nat))
  = PromiseAll.Rejected (JStr "Error").
Proof.
  apply promiseAll_rejects_with_first_rejection.
  - apply (bool_decide_unpack _). vm_compute. exact I.
  - intros j Hj. apply list_elem_of_singleton in Hj as ->. by eexists.
  - reflexivity.
Defined.

(** * debounce *)

Section DebounceFacts.

Implicit Types (events : list Debounce.event) (st : Debounce.t)
  (args : list jsval) (id : nat).

Lemma debounce_run_snoc events e :
  Debounce.run (events ++ [e]) = Debounce.step (Debounce.run events) e.
Proof. unfold Debounce.run. by rewrite fold_left_app. Qed.

Lemma calls_snoc_call events args :
  Debounce.calls (events ++ [Debounce.Call args])
  = Debounce.calls events ++ [args].
Proof. unfold Debounce.calls. by rewrite omap_app. Qed.

Lemma calls_snoc_fire events id :
  Debounce.calls (events ++ [Debounce.Fire id]) = Debounce.calls events.
Proof. unfold Debounce.calls. rewrite omap_app. simpl. apply app_nil_r. Qed.

(** A timer that is registered is the one [timeoutId] names. *)
Lemma clear_current st :
  (∀ id args, Debounce.timers st !! id = Some args →
              Debounce.timeoutId st = Some id) →
  Debounce.clearTimeout (Debounce.timeoutId st) (Debounce.timers st) = ∅.
Proof.
  intros Hcur. apply map_eq. intros id. rewrite lookup_empty.
  destruct (Debounce.clearTimeout _ _ !! id) as [args|] eqn:Hid; [|done].
  unfold Debounce.clearTimeout in Hid.
  destruct (Debounce.timeoutId st) as [cur|] eqn:Hc.
  - apply lookup_delete_Some in Hid as [Hne Hid].
    apply Hcur in Hid. congruence.
  - apply Hcur in Hid. congruence.
Qed.

Lemma debounce_invariant events :
  let s := Debounce.run events in
  (∀ id args, Debounce.timers s.2 !! id = Some args →
              Debounce.timeoutId s.2 = Some id
              ∧ last (Debounce.calls events) = Some args
              ∧ sublist (s.1 ++ [args]) (Debounce.calls events))
  ∧ sublist s.1 (Debounce.calls events).
Proof.
  cbv zeta. induction events as [|e events IH] using rev_ind.
  - unfold Debounce.run; simpl. split; [|done].
    intros id args Hid. by rewrite lookup_empty in Hid.
  - destruct IH as [Hpend Hlog]. rewrite debounce_run_snoc.
    destruct e as [args|id]; simpl.
    + rewrite calls_snoc_call. split.
      * intros id' args' Hid'. unfold Debounce.call in Hid'. simpl in Hid'.
        rewrite clear_current in Hid'
          by (intros i a Hi; exact (proj1 (Hpend i a Hi))).
        apply lookup_insert_Some in Hid' as [[<- <-]|[_ Hid']];
          [|by rewrite lookup_empty in Hid'].
        split; [done|]. split; [apply last_snoc|].
        by apply sublist_app.
      * by apply sublist_inserts_r.
    + rewrite calls_snoc_fire. unfold Debounce.fire.
      destruct (Debounce.timers (Debounce.run events).2 !! id)
        as [args|] eqn:Hid; simpl.
      * split; [|by apply Hpend in Hid as (_ & _ & ?)].
        intros id' args' Hid'.
        apply lookup_delete_Some in Hid' as [Hne Hid'].
        apply Hpend in Hid as [Hcur _]. apply Hpend in Hid' as [Hcur' _].
        congruence.
      * by split.
Qed.

End DebounceFacts.

(** X15: [debounce] runs [func] for the latest call only: at any moment
    the only timer that can still run is the one [timeoutId] names, and
    it holds the arguments of the most recent call; the arguments [func]
    has been applied to, followed by those of the timer still registered,
    are arguments of calls, in call order, each call being used at most
    once. *)
Theorem debounce_keeps_latest_call_only (events : list Debounce.event)
    (id : nat) (args : list jsval) :
  let s := Debounce.run events in
  sublist s.1 (Debounce.calls events)
  ∧ (Debounce.timers s.2 !! id = Some args →
     Debounce.timeoutId s.2 = Some id
     ∧ Debounce.timers s.2 = {[ id := args ]}
     ∧ last (Debounce.calls events) = Some args
     ∧ sublist (s.1 ++ [args]) (Debounce.calls events)).
Proof.
  destruct (debounce_invariant events) as [Hpend Hlog]. cbv zeta in *.
  split; [done|]. intros Hid.
  destruct (Hpend id args Hid) as (Hcur & Hlast & Hsub).
  repeat split; try done.
  apply map_eq. intros id'. destruct (decide (id' = id)) as [->|Hne].
  - by rewrite lookup_singleton_eq.
  - rewrite lookup_singleton_ne by done.
    destruct (Debounce.timers _ !! id') as [args'|] eqn:Hid'; [|done].
    apply Hpend in Hid' as [Hcur' _]. congruence.
Qed.

Lemma debounce_keeps_latest_call_only_witness :
  let s := Debounce.run
             [Debounce.Call [JStr "a"]; Debounce.Call [JStr "ab"];
              Debounce.Call [JStr "abc"]] in
  Debounce.timeoutId s.2 = Some 2%nat
  ∧ Debounce.timers s.2 = {[ 2%nat := [JStr "abc"] ]}
  ∧ last (Debounce.calls
            [Debounce.Call [JStr "a"]; Debounce.Call [JStr "ab"];
             Debounce.Call [JStr "abc"]]) = Some [JStr "abc"]
  ∧ sublist (s.1 ++ [[JStr "abc"]])
      (Debounce.calls
         [Debounce.Call [JStr "a"]; Debounce.Call [JStr "ab"];
          Debounce.Call [JStr "abc"]]).
Proof.
  apply (debounce_keeps_latest_call_only
           [Debounce.Call [JStr "a"]; Debounce.Call [JStr "ab"];
            Debounce.Call [JStr "abc"]] 2%nat [JStr "abc"]).
  reflexivity.
Defined.

(** X16: a burst of calls runs [func] once: after any history, calls that
    follow one another without a timer running in between apply [func] to
    nothing, cancel the timer that was registered before them and leave
    exactly one timer, that of the last call; when the runtime runs it,
    [func] is applied to the arguments of the last call and no timer is
    left. *)
Theorem debounce_burst_runs_last_call (events : list Debounce.event)
    (burst : list (list jsval)) (args : list jsval) :
  let s0 := Debounce.run events in
  let s := Debounce.run (events ++ (Debounce.Call <$> burst)
                         ++ [Debounce.Call args]) in
  s.1 = s0.1
  ∧ ∃ id,
      Debounce.timeoutId s.2 = Some id
      ∧ Debounce.timers s.2 = {[ id := args ]}
      ∧ (Debounce.step s (Debounce.Fire id)).1 = s0.1 ++ [args]
      ∧ Debounce.timers (Debounce.step s (Debounce.Fire id)).2 = ∅.
Proof.
  cbv zeta. rewrite app_assoc, debounce_run_snoc.
  set (s1 := Debounce.run (events ++ (Debounce.Call <$> burst))).
  assert (s1.1 = (Debounce.run events).1) as Hlog.
  { subst s1. induction burst as [|a burst IH] using rev_ind.
    - simpl. by rewrite app_nil_r.
    - rewrite fmap_app, app_assoc. simpl. rewrite debounce_run_snoc.
      simpl. exact IH. }
  simpl. split; [done|]. exists (Debounce.next s1.2).
  assert (Debounce.timers (Debounce.call s1.2 args)
          = {[ Debounce.next s1.2 := args ]}) as Htimers.
  { unfold Debounce.call; simpl. rewrite clear_current; [done|].
    intros id' args' Hid'.
    destruct (debounce_invariant (events ++ (Debounce.Call <$> burst)))
      as [Hpend _].
    exact (proj1 (Hpend id' args' Hid')). }
  split; [done|]. split; [done|].
  unfold Debounce.fire. rewrite Htimers, lookup_singleton_eq. simpl.
  split; [by rewrite Hlog|]. apply delete_singleton_eq.
Qed.

(** * Quota per window *)

Section Windows.

Variables (w : Z) (id : jsval).

Implicit Types (rl : RateLimiter.t) (ts b old cur : list Z).





End Windows.


